(** * Verification of [pytorch_unet/trainer/interpret.py]

    A shallow embedding of the interpretation script of the radnet
    repository: argument parsing, the walk over the named modules, the
    manual pooling, the block-filter plots and the sensitivity analysis.

    Conventions.
    - Python [int] is [Z]; list positions are [nat].
    - A tensor is its shape together with its entries in row-major order.
      Entries are rationals: every finite floating-point value is one;
      rounding, infinities and NaN are outside the model.
    - The deep-learning framework, the plotting library, [argparse] and the
      helpers of [pytorch_unet.utils.helpers] are not part of the file under
      verification.  Their operations are the fields of the record
      [framework]; their calls are taken to complete.
    - A computation yields a trace of observable events and an outcome:
      a value, a raised exception, or exhaustion of the recursion budget
      ([OutOfFuel]; CPython reports it as [RecursionError] once the
      interpreter's recursion limit is reached).  The events are the calls
      that leave the file (directory creation, loading, forward passes,
      [savefig], [print]) and the entry into each visualization routine.
    - Moves between devices ([.to(device)], [.cpu()] on tensors),
      [detach], the copy made by [torch.Tensor(...)] and [model.zero_grad()]
      do not change the values the properties speak of and are left out;
      the figure calls of the plotting library are kept only as far as
      they read the tensor ([block[0][i]]) or write a file. *)

From Stdlib Require Import ZArith QArith Qabs List String Ascii Bool Lia.
From Stdlib Require Import DecimalString.
Import ListNotations.

Local Open Scope Z_scope.

(** ** Outcomes *)

Inductive exn : Type :=
| IndexError
| ValueError
| SystemExit (code : Z).

Inductive outcome (A : Type) : Type :=
| Ret (a : A)
| Raise (e : exn)
| OutOfFuel.

Arguments Ret {A} a.
Arguments Raise {A} e.
Arguments OutOfFuel {A}.

Definition obind {A B} (o : outcome A) (k : A -> outcome B) : outcome B :=
  match o with
  | Ret a => k a
  | Raise e => Raise e
  | OutOfFuel => OutOfFuel
  end.

(** ** Observable events and the trace monad *)

Record tensor : Type := mkTensor { shape : list nat; data : list Q }.

(** The two visualization routines of the script. *)
Inductive routine : Type := PlotSensitivity | BlockFilters.

Inductive event : Type :=
| Makedirs (path : string)        (* os.makedirs(path) *)
| LoadModel                       (* load_model(args) *)
| LoadImage (path : string)       (* load_image(path, args) *)
| Forward (inputs : list tensor)  (* a module applied to these tensors *)
| Savefig (path : string)         (* plt.savefig(path) *)
| Print (text : string)           (* print(text) *)
| Call (r : routine).             (* entry into a visualization routine *)

Definition M (A : Type) : Type := (list event * outcome A)%type.

Definition ret {A} (a : A) : M A := ([], Ret a).

Definition bind {A B} (m : M A) (k : A -> M B) : M B :=
  let (tr, o) := m in
  match o with
  | Ret a => let (tr', o') := k a in (tr ++ tr', o')
  | Raise e => (tr, Raise e)
  | OutOfFuel => (tr, OutOfFuel)
  end.

Definition emit (e : event) : M unit := ([e], Ret tt).
Definition lift {A} (o : outcome A) : M A := ([], o).

Declare Scope py_scope.
Delimit Scope py_scope with py.
Notation "x <- m ;; k" := (bind m (fun x => k))
  (at level 100, m at next level, right associativity) : py_scope.
Notation "m ;;; k" := (bind m (fun _ => k))
  (at level 100, right associativity) : py_scope.
Local Open Scope py_scope.

(** [for x in l: body(x)]. *)
Fixpoint for_ {A} (l : list A) (body : A -> M unit) : M unit :=
  match l with
  | [] => ret tt
  | x :: l' => body x ;;; for_ l' body
  end.

(** A loop that threads an accumulator, as [acc.append(...)] does. *)
Fixpoint fold_ {A S} (l : list A) (body : S -> A -> M S) (s : S) : M S :=
  match l with
  | [] => ret s
  | x :: l' => s' <- body s x ;; fold_ l' body s'
  end.

(** ** Python built-ins *)

(** [range(n)], and [range(a, b)]. *)
Definition range (n : Z) : list nat := seq 0 (Z.to_nat n).
Definition range2 (a b : Z) : list nat := seq (Z.to_nat a) (Z.to_nat (b - a)).

(** [l[i]] for a position [i >= 0]. *)
Definition getitem {A} (l : list A) (i : nat) : outcome A :=
  match nth_error l i with
  | Some x => Ret x
  | None => Raise IndexError
  end.

(** [str.format] of an integer. *)
Definition str_int (z : Z) : string := NilZero.string_of_int (Z.to_int z).

(** [len]. *)
Definition len {A} (l : list A) : Z := Z.of_nat (List.length l).

(** ** Tensors *)

Definition numel (s : list nat) : nat := fold_right Nat.mul 1%nat s.

(** [t.unsqueeze(0)] and [t[None]]: a new leading dimension of size one. *)
Definition unsqueeze0 (t : tensor) : tensor :=
  mkTensor (1%nat :: shape t) (data t).

(** The size of the leading (batch) dimension, when there is one. *)
Definition batch (t : tensor) : option nat := hd_error (shape t).

(** [t[i]] for a position [i >= 0]: the [i]-th slab along the leading
    dimension. *)
Definition tindex (t : tensor) (i : nat) : outcome tensor :=
  match shape t with
  | n :: rest =>
      if (i <? n)%nat
      then Ret (mkTensor rest
                  (firstn (numel rest) (skipn (i * numel rest) (data t))))
      else Raise IndexError
  | [] => Raise IndexError
  end.

(** Elementwise operations of numpy. *)
Definition tmap (f : Q -> Q) (t : tensor) : tensor :=
  mkTensor (shape t) (map f (data t)).

Definition np_abs : tensor -> tensor := tmap Qabs.
Definition np_square : tensor -> tensor := tmap (fun x => x * x)%Q.

(** [np.squeeze(a, axis=0)]: the leading axis must have size one. *)
Definition np_squeeze0 (t : tensor) : outcome tensor :=
  match shape t with
  | 1%nat :: rest => Ret (mkTensor rest (data t))
  | _ => Raise ValueError
  end.

(** [torch.zeros(size)]. *)
Definition zeros (s : list nat) : tensor :=
  mkTensor s (repeat 0%Q (numel s)).

(** ** Parsed arguments *)

Record Namespace : Type := mkNamespace {
  main_dir : string;
  interpret_path : string;
  weights_dir : string;
  image_size : Z;
  depth : Z;
  plot_interpret : string;
  plot_size : Z
}.

(** The options declared by [parse_args], in the order of their declaration. *)
Inductive flag : Type :=
| MainDir | InterpretPath | WeightsDir | ImageSize | Depth | PlotInterpret | PlotSize.

(** ** The collaborators outside the file *)

Record framework : Type := mkFramework {
  (** [torch.nn.Module] objects. *)
  module : Type;
  (** [mod.named_modules()]: dotted path and sub-module, in traversal order. *)
  named_modules : module -> list (string * module);
  (** [m(x)]: forward pass of a module on one tensor. *)
  call1 : module -> tensor -> tensor;
  (** [m(x, bridge)]: forward pass of a decoder block. *)
  call2 : module -> tensor -> tensor -> tensor;
  (** [X.grad] after [m(X).backward(gradient=g)]. *)
  backward : module -> tensor -> tensor -> tensor;
  (** [m.cpu()] and [m.eval()]. *)
  cpu : module -> module;
  eval : module -> module;
  (** [F.avg_pool2d(x, 2)]. *)
  avg_pool2d : tensor -> tensor;
  (** [load_model(args)] and [load_image(img_path, args)] of the helpers. *)
  load_model : Namespace -> module;
  load_image : string -> Namespace -> tensor * tensor;
  (** [os.path.exists] and [os.path.join]. *)
  path_exists : string -> bool;
  path_join : string -> list string -> string;
  (** [sys.argv[1:]]. *)
  sys_argv : list string;
  (** [argparse]'s scan of the argument vector into option occurrences
      (an exit code when the vector is refused or help is requested),
      and Python's [int] on a string. *)
  scan_args : list string -> Z + list (flag * string);
  py_int : string -> option Z
}.

(** ** [parse_args] *)

Definition backslash : string := String (ascii_of_nat 92) EmptyString.

(** The declared defaults. *)
Definition default_main_dir : string :=
  Eval cbv in
    ("C:" ++ backslash ++ "Users" ++ backslash ++ "Mukesh" ++ backslash
     ++ "Segmentation" ++ backslash ++ "radnet" ++ backslash)%string.

Definition defaults : Namespace :=
  mkNamespace default_main_dir "./visualize" "./weights" 64 3 "block_filters" 128.

(** [choices] of [--plot_interpret]. *)
Definition plot_interpret_choices : list string :=
  ["sensitivity"; "block_filters"]%string.

Definition in_choices (v : string) (cs : list string) : bool :=
  existsb (String.eqb v) cs.

Section ParseArgs.

Variable F : framework.

(** An option given with a value [type] refuses, or outside [choices],
    makes [argparse] exit with status 2. *)
Definition convert_int (v : string) : outcome Z :=
  match py_int F v with
  | Some z => Ret z
  | None => Raise (SystemExit 2)
  end.

(** One occurrence of an option: conversion by [type], the [choices] test,
    then the store into the namespace. *)
Definition store (ns : Namespace) (occ : flag * string) : outcome Namespace :=
  let (f, v) := occ in
  match f with
  | MainDir =>
      Ret (mkNamespace v (interpret_path ns) (weights_dir ns) (image_size ns)
             (depth ns) (plot_interpret ns) (plot_size ns))
  | InterpretPath =>
      Ret (mkNamespace (main_dir ns) v (weights_dir ns) (image_size ns)
             (depth ns) (plot_interpret ns) (plot_size ns))
  | WeightsDir =>
      Ret (mkNamespace (main_dir ns) (interpret_path ns) v (image_size ns)
             (depth ns) (plot_interpret ns) (plot_size ns))
  | ImageSize =>
      obind (convert_int v) (fun z =>
      Ret (mkNamespace (main_dir ns) (interpret_path ns) (weights_dir ns) z
             (depth ns) (plot_interpret ns) (plot_size ns)))
  | Depth =>
      obind (convert_int v) (fun z =>
      Ret (mkNamespace (main_dir ns) (interpret_path ns) (weights_dir ns)
             (image_size ns) z (plot_interpret ns) (plot_size ns)))
  | PlotInterpret =>
      if in_choices v plot_interpret_choices
      then Ret (mkNamespace (main_dir ns) (interpret_path ns) (weights_dir ns)
                  (image_size ns) (depth ns) v (plot_size ns))
      else Raise (SystemExit 2)
  | PlotSize =>
      obind (convert_int v) (fun z =>
      Ret (mkNamespace (main_dir ns) (interpret_path ns) (weights_dir ns)
             (image_size ns) (depth ns) (plot_interpret ns) z))
  end.

(** The occurrences are taken in command-line order; a later one overrides. *)
Fixpoint store_all (occs : list (flag * string)) (ns : Namespace)
  : outcome Namespace :=
  match occs with
  | [] => Ret ns
  | occ :: occs' => obind (store ns occ) (store_all occs')
  end.

Definition parse_args (args : list string) : outcome Namespace :=
  match scan_args F args with
  | inl code => Raise (SystemExit code)
  | inr occs => store_all occs defaults
  end.

End ParseArgs.

(** ** [all_children], [get_values], [do_pooling], [get_block_list] *)

Section Blocks.

Variable F : framework.

Definition all_children (mod_ : module F) : list (string * module F) :=
  named_modules F mod_.

(** [key_to_find in z] for a pair [z = (name, module)]: membership in the
    tuple, that is equality with one of its two components.  A module
    object never equals a string, so the test is equality with the name. *)
Definition tuple_contains (key_to_find : string) (z : string * module F) : bool :=
  String.eqb key_to_find (fst z).

Definition get_values (iterables : list (string * module F)) (key_to_find : string)
  : list (string * module F) :=
  filter (tuple_contains key_to_find) iterables.

(** Each call consumes one unit of the recursion budget. *)
Fixpoint do_pooling (fuel : nat) (dep : Z) (d : tensor) : outcome tensor :=
  match fuel with
  | O => OutOfFuel
  | S fuel' =>
      if dep - 1 =? 1 then Ret (avg_pool2d F d)
      else obind (do_pooling fuel' (dep - 1) d)
                 (fun x => Ret (avg_pool2d F x))
  end.

(** The argument of the call nested [k] levels below [do_pooling(dep, _)],
    and the test guarding the base case. *)
Definition do_pooling_arg (dep : Z) (k : nat) : Z := dep - Z.of_nat k.
Definition do_pooling_base (dep : Z) : bool := dep - 1 =? 1.

(** [seq[x][0][1]]. *)
Definition first_module (seq_ : list (list (string * module F))) (x : nat)
  : outcome (module F) :=
  obind (getitem seq_ x) (fun matches =>
  obind (getitem matches 0) (fun entry =>
  Ret (snd entry))).

(** The loop [for x in range(n): block_list.append(seq[x][0][1])]. *)
Fixpoint collect (seq_ : list (list (string * module F))) (xs : list nat)
  (block_list : list (module F)) : outcome (list (module F)) :=
  match xs with
  | [] => Ret block_list
  | x :: xs' =>
      obind (first_module seq_ x) (fun b => collect seq_ xs' (block_list ++ [b]))
  end.

Definition get_block_list (child_list : list (string * module F)) (args : Namespace)
  : outcome (list (module F) * list (module F)) :=
  let down_seq :=
    map (fun y => get_values child_list ("down_path." ++ str_int (Z.of_nat y))%string)
        (range (depth args)) in
  obind (collect down_seq (range (depth args)) []) (fun down_block_list =>
  let up_seq :=
    map (fun y => get_values child_list ("up_path." ++ str_int (Z.of_nat y))%string)
        (range (depth args - 1)) in
  obind (collect up_seq (range (depth args - 1)) []) (fun up_block_list =>
  Ret (down_block_list, up_block_list))).

End Blocks.

(** ** [plot_block] and [block_filters] *)

Section BlockFilters.

Variable F : framework.

(** A forward pass, recorded with the tensors it is applied to. *)
Definition forward1 (m : module F) (x : tensor) : M tensor :=
  emit (Forward [x]) ;;; ret (call1 F m x).

Definition forward2 (m : module F) (x bridge : tensor) : M tensor :=
  emit (Forward [x; bridge]) ;;; ret (call2 F m x bridge).

(** [args.interpret_path + '/{}_block_filter_{}.png'.format(name, img_size)]. *)
Definition block_path (args : Namespace) (name : string) (img_size : Z) : string :=
  (interpret_path args ++ "/" ++ name ++ "_block_filter_" ++ str_int img_size
   ++ ".png")%string.

(** The loop reads [block[0][i]] for every [i] below [img_size]; the figure
    calls themselves stay inside the plotting library until [savefig]. *)
Definition plot_block (args : Namespace) (block : tensor) (img_size : Z)
  (name : string) : M unit :=
  for_ (range img_size) (fun i =>
    b0 <- lift (tindex block 0) ;;
    _ <- lift (tindex b0 i) ;;
    ret tt) ;;;
  emit (Savefig (block_path args name img_size)).

(** The hard-coded lists zipped with the block outputs. *)
Definition down_sizes : list Z := [64; 128; 256].
Definition up_sizes : list Z := [16; 32].

Definition block_filters (fuel : nat) (model : module F) (img_path : string)
  (args : Namespace) : M unit :=
  emit (Call BlockFilters) ;;;
  let module_list := all_children F model in
  emit (LoadImage img_path) ;;;
  let img_tensor := fst (load_image F img_path args) in
  let input_img := unsqueeze0 img_tensor in
  lists <- lift (get_block_list F module_list args) ;;
  let down_list := fst lists in
  let up_list := snd lists in
  d0 <- lift (getitem down_list 0) ;;
  l0 <- forward1 d0 input_img ;;
  dep_list <- fold_ (range2 1 (len down_list)) (fun dep_list i =>
      blk <- lift (getitem down_list i) ;;
      x <- lift (getitem dep_list (i - 1)) ;;
      layer <- forward1 blk x ;;
      ret (dep_list ++ [layer])) [l0] ;;
  for_ (combine (range (len dep_list)) down_sizes) (fun jm =>
      b <- lift (getitem dep_list (fst jm)) ;;
      plot_block args b (snd jm) "down") ;;;
  let pooled := map (avg_pool2d F) dep_list in
  let reversed_uplist := rev up_list in
  up_block <- fold_ (range (len up_list)) (fun up_block i =>
      d <- lift (getitem dep_list (i + 1)) ;;
      pools <- lift (do_pooling F fuel (depth args) d) ;;
      blk <- lift (getitem reversed_uplist i) ;;
      br <- lift (getitem dep_list i) ;;
      up_layer <- forward2 blk pools (avg_pool2d F br) ;;
      ret (up_block ++ [up_layer])) [] ;;
  for_ (combine (range (len up_list)) up_sizes) (fun jm =>
      b <- lift (getitem up_block (fst jm)) ;;
      plot_block args b (snd jm) "up").

End BlockFilters.

(** ** [sensitivity_analysis] and [plot_sensitivity] *)

(** The values a caller passes as [postprocess]. *)
Inductive pyval : Type :=
| PyNone
| PyStr (s : string)
| PyInt (z : Z).

(** Entry [(0, c, p)] of a tensor whose trailing dimensions hold [P]
    positions. *)
Definition entry (d : list Q) (P c p : nat) : Q := nth (c * P + p) d 0%Q.

(** Position of the first maximal value. *)
Fixpoint argmax_from (best : Q) (besti i : nat) (l : list Q) : nat :=
  match l with
  | [] => besti
  | x :: l' =>
      if Qle_bool x best then argmax_from best besti (S i) l'
      else argmax_from x i (S i) l'
  end.

Definition argmax (l : list Q) : nat :=
  match l with
  | [] => O
  | x :: l' => argmax_from x 0 1 l'
  end.

(** The scores of class [c] over the positions, and of position [p] over the
    classes, in batch entry 0. *)
Definition class_scores (output : tensor) (C P p : nat) : list Q :=
  map (fun c => entry (data output) P c p) (seq 0 C).

(** [output.max(1)[1].data.numpy()[0]]: for each position of the trailing
    dimensions, the class with the maximal score.  For an output of shape
    (1, C) there is one position and the result is a scalar. *)
Definition output_class_of (output : tensor) : outcome (list nat) :=
  match shape output with
  | S _ :: S C' :: rest =>
      Ret (map (fun p => argmax (class_scores output (S C') (numel rest) p))
             (seq 0 (numel rest)))
  | _ => Raise IndexError
  end.

(** [t[0, classes] = 1]: every entry of batch entry 0 whose class is among
    [classes] becomes one. *)
Definition set_classes (t : tensor) (classes : list nat) : tensor :=
  match shape t with
  | _ :: C :: rest =>
      let P := numel rest in
      mkTensor (shape t)
        (map (fun ix =>
                if ((fst ix <? C * P)%nat
                    && existsb (Nat.eqb (fst ix / P)) classes)%bool
                then 1%Q else snd ix)
             (combine (seq 0 (List.length (data t))) (data t)))
  | _ => t
  end.

(** An integer used as an index into a dimension of size [n]. *)
Definition py_index (n : nat) (i : Z) : outcome nat :=
  if ((0 <=? i) && (i <? Z.of_nat n))%bool then Ret (Z.to_nat i)
  else if ((- Z.of_nat n <=? i) && (i <? 0))%bool
       then Ret (Z.to_nat (Z.of_nat n + i))
       else Raise IndexError.

Definition num_classes (t : tensor) : nat :=
  match shape t with
  | _ :: C :: _ => C
  | _ => O
  end.

(** Lines 162 to 170: the weights handed to [backward]. *)
Definition one_hot_output_of (output : tensor) (target_class : option Z)
  : outcome tensor :=
  obind (output_class_of output) (fun output_class =>
  let one_hot_output := zeros (shape output) in
  match target_class with
  | None => Ret (set_classes one_hot_output output_class)
  | Some t =>
      obind (py_index (num_classes output) t) (fun c =>
      Ret (set_classes one_hot_output [c]))
  end).

Section Sensitivity.

Variable F : framework.

(** Lines 157 to 173: the gradient map before post-processing. *)
Definition relevance_map (model : module F) (image_tensor : tensor)
  (target_class : option Z) : M tensor :=
  let X := unsqueeze0 image_tensor in
  let model := eval F (cpu F model) in
  output <- forward1 F model X ;;
  one_hot_output <- lift (one_hot_output_of output target_class) ;;
  let grad := backward F model X one_hot_output in
  lift (tindex grad 0).

(** Lines 175 to 182. *)
Definition postprocess_map (relevance : tensor) (postprocess : pyval) : outcome tensor :=
  match postprocess with
  | PyStr s =>
      if String.eqb s "abs" then Ret (np_abs relevance)
      else if String.eqb s "square" then Ret (np_square relevance)
      else Raise ValueError
  | PyNone => Ret relevance
  | PyInt _ => Raise ValueError
  end.

Definition sensitivity_analysis (model : module F) (image_tensor : tensor)
  (target_class : option Z) (postprocess : pyval) : M tensor :=
  relevance <- relevance_map model image_tensor target_class ;;
  lift (postprocess_map relevance postprocess).

Definition sensitivity_path (args : Namespace) : string :=
  (interpret_path args ++ "/sensitivity.png")%string.

Definition plot_sensitivity (img_path : string) (model : module F)
  (args : Namespace) : M unit :=
  emit (Call PlotSensitivity) ;;;
  emit (LoadImage img_path) ;;;
  let img_tensor := fst (load_image F img_path args) in
  _mapped <- sensitivity_analysis model img_tensor None (PyStr "abs") ;;
  mapped <- lift (np_squeeze0 _mapped) ;;
  emit (Savefig (sensitivity_path args)).

(** ** [main] *)

Definition main (fuel : nat) (args : option (list string)) : M unit :=
  let args := match args with None => sys_argv F | Some a => a end in
  args <- lift (parse_args F args) ;;
  (if negb (path_exists F (interpret_path args))
   then emit (Makedirs (interpret_path args)) else ret tt) ;;;
  emit LoadModel ;;;
  let model := load_model F args in
  let img_path := path_join F (main_dir args) ["data"; "test-volume.tif"]%string in
  (if String.eqb (plot_interpret args) "sensitivity"
   then plot_sensitivity img_path model args else ret tt) ;;;
  (if String.eqb (plot_interpret args) "block_filters"
   then block_filters F fuel model img_path args else ret tt) ;;;
  emit (Print "Interpretation complete").

(** The parts of a run of [main]: the argument vector it parses, what
    precedes the dispatch, and the routine the parsed arguments select. *)
Definition argv_of (args : option (list string)) : list string :=
  match args with None => sys_argv F | Some a => a end.

Definition setup_events (args : Namespace) : list event :=
  (if path_exists F (interpret_path args) then []
   else [Makedirs (interpret_path args)]) ++ [LoadModel].

Definition selected (args : Namespace) : routine :=
  if String.eqb (plot_interpret args) "sensitivity"
  then PlotSensitivity else BlockFilters.

Definition run_routine (fuel : nat) (args : Namespace) (r : routine) : M unit :=
  let model := load_model F args in
  let img_path := path_join F (main_dir args) ["data"; "test-volume.tif"]%string in
  match r with
  | PlotSensitivity => plot_sensitivity img_path model args
  | BlockFilters => block_filters F fuel model img_path args
  end.

Definition dispatched (fuel : nat) (args : Namespace) : M unit :=
  run_routine fuel args (selected args).

End Sensitivity.

(** ** Observations on traces *)

(** The files written, in order. *)
Definition saved (tr : list event) : list string :=
  flat_map (fun e => match e with Savefig p => [p] | _ => [] end) tr.


(** The tensors handed to forward passes, in order. *)
Definition forwarded (tr : list event) : list tensor :=
  flat_map (fun e => match e with Forward xs => xs | _ => [] end) tr.



(** Every event of [m] satisfies [P], and a value it returns satisfies [Q]. *)
Definition inv {A} (P : event -> Prop) (Q : A -> Prop) (m : M A) : Prop :=
  Forall P (fst m) /\ forall a, snd m = Ret a -> Q a.

(** [m] returns a value satisfying [Q], having written exactly the files
    [paths], in that order. *)
Definition writes {A} (m : M A) (paths : list string) (Q : A -> Prop) : Prop :=
  exists tr a, m = (tr, Ret a) /\ saved tr = paths /\ Q a.

(** A forward pass on tensors of batch size one. *)
Definition batch_of_one (e : event) : Prop :=
  match e with
  | Forward xs => Forall (fun t => batch t = Some 1%nat) xs
  | _ => True
  end.



(** ** Conditions on the model and on the framework *)

(** The child list has, for each level the script visits, an entry whose
    name is the pattern itself. *)
Definition has_block {Mod : Type} (child_list : list (string * Mod))
  (prefix : string) (y : nat) : Prop :=
  exists m, In ((prefix ++ str_int (Z.of_nat y))%string, m) child_list.

Definition blocks_present {Mod : Type} (child_list : list (string * Mod))
  (depth : Z) : Prop :=
  (forall y, (y < Z.to_nat depth)%nat -> has_block child_list "down_path." y)
  /\ (forall y, (y < Z.to_nat (depth - 1))%nat -> has_block child_list "up_path." y).

(** The first entry of the child list whose name is [key]. *)
Fixpoint first_named {Mod : Type} (child_list : list (string * Mod)) (key : string)
  : option Mod :=
  match child_list with
  | [] => None
  | (name, m) :: rest =>
      if String.eqb key name then Some m else first_named rest key
  end.

(** [block[0][i]] exists for every [i] below [n]. *)
Definition has_channels (t : tensor) (n : nat) : Prop :=
  exists b c rest, shape t = S b :: c :: rest /\ (n <= c)%nat.

(** The modules selected for the positions [xs]: for each, the first entry
    named by the pattern; nothing when some pattern names no entry. *)
Fixpoint select_blocks {Mod : Type} (child_list : list (string * Mod))
  (pattern : nat -> string) (xs : list nat) : option (list Mod) :=
  match xs with
  | [] => Some []
  | x :: xs' =>
      match first_named child_list (pattern x), select_blocks child_list pattern xs' with
      | Some m, Some l => Some (m :: l)
      | _, _ => None
      end
  end.

Definition down_pattern (y : nat) : string :=
  ("down_path." ++ str_int (Z.of_nat y))%string.
Definition up_pattern (y : nat) : string :=
  ("up_path." ++ str_int (Z.of_nat y))%string.


(** [w] holds a one at position [c] and zeros everywhere else. *)
Definition single_one (w : tensor) (c : nat) : Prop :=
  (c < List.length (data w))%nat
  /\ forall i, (i < List.length (data w))%nat ->
       nth i (data w) 0%Q = if (i =? c)%nat then 1%Q else 0%Q.


(** The block outputs have the channels the plots read: the output of
    down block [j] at least [down_sizes[j]], and the output of the [j]-th up
    block applied (up blocks are applied in reverse order) at least
    [up_sizes[j]]. *)
Definition enough_channels (F : framework)
  (child_list : list (string * module F)) (depth : Z) : Prop :=
  (forall j sz m x,
     nth_error down_sizes j = Some sz ->
     first_named child_list (down_pattern j) = Some m ->
     has_channels (call1 F m x) (Z.to_nat sz))
  /\ (forall j sz m x y,
        nth_error up_sizes j = Some sz ->
        first_named child_list (up_pattern (Z.to_nat depth - 2 - j)) = Some m ->
        has_channels (call2 F m x y) (Z.to_nat sz)).

(** An occurrence that [argparse] accepts: its value converts under [type]
    and lies in [choices]. *)
Definition accepted (F : framework) (occ : flag * string) : bool :=
  match fst occ with
  | ImageSize | Depth | PlotSize =>
      match py_int F (snd occ) with Some _ => true | None => false end
  | PlotInterpret => in_choices (snd occ) plot_interpret_choices
  | MainDir | InterpretPath | WeightsDir => true
  end.

Definition is_plot_interpret (occ : flag * string) : bool :=
  match fst occ with PlotInterpret => true | _ => false end.

(** The value of the last [--plot_interpret] on the command line. *)
Fixpoint last_plot_interpret (occs : list (flag * string)) : option string :=
  match occs with
  | [] => None
  | occ :: rest =>
      match last_plot_interpret rest with
      | Some v => Some v
      | None => if is_plot_interpret occ then Some (snd occ) else None
      end
  end.

(** The two spatial dimensions of a (N, C, H, W) or (C, H, W) tensor. *)
Definition spatial (t : tensor) : option (nat * nat) :=
  match rev (shape t) with
  | w :: h :: _ :: _ => Some (h, w)
  | _ => None
  end.

(** The 2x2 pooling halves each spatial dimension. *)
Definition pool_halves (F : framework) : Prop :=
  forall x h w,
    spatial x = Some (h, w) ->
    spatial (avg_pool2d F x) = Some (h / 2, w / 2)%nat.

(** The framework keeps a batch of one a batch of one. *)
Definition keeps_batch (F : framework) : Prop :=
  (forall m x, batch x = Some 1%nat -> batch (call1 F m x) = Some 1%nat)
  /\ (forall x, batch x = Some 1%nat -> batch (avg_pool2d F x) = Some 1%nat).

(** The reading of the precondition of [get_block_list] that matches a
    pattern against part of a name: [sub] occurs somewhere in [s]. *)
Fixpoint name_contains (sub s : string) : bool :=
  (String.prefix sub s
   || match s with
      | EmptyString => false
      | String _ s' => name_contains sub s'
      end)%bool.

Definition blocks_present_by_substring {Mod : Type}
  (child_list : list (string * Mod)) (depth : Z) : Prop :=
  (forall y, 0 <= y < depth ->
     exists entry, In entry child_list
       /\ name_contains ("down_path." ++ str_int y) (fst entry) = true)
  /\ (forall y, 0 <= y < depth - 1 ->
     exists entry, In entry child_list
       /\ name_contains ("up_path." ++ str_int y) (fst entry) = true).

(** ** A small concrete framework

    A three-level network over one-pixel images, with two classes scored
    [s] and [-s] for the pixel sum [s]; module 0 is the whole network and
    module 7 a segmentation head over two positions. *)

Definition qsum (l : list Q) : Q := fold_right Qplus 0%Q l.

Definition toy_named_modules (m : nat) : list (string * nat) :=
  [ ("", 0%nat); ("down_path", 1%nat); ("down_path.0", 10%nat);
    ("down_path.0.block", 11%nat); ("down_path.1", 20%nat);
    ("down_path.2", 30%nat); ("up_path", 2%nat); ("up_path.0", 40%nat);
    ("up_path.1", 50%nat) ]%string.

Definition toy_call1 (m : nat) (x : tensor) : tensor :=
  match m with
  | O => mkTensor [1; 2]%nat [qsum (data x); (- qsum (data x))%Q]
  | 7%nat => mkTensor [1; 2; 1; 2]%nat [1; 0; 0; 1]%Q
  | _ => mkTensor [1; 256; 1; 1]%nat (repeat 1%Q 256)
  end.

Definition toy_call2 (m : nat) (x bridge : tensor) : tensor :=
  mkTensor [1; 32; 1; 1]%nat (repeat 1%Q 32).

(** The gradient of [g0 * s + g1 * (- s)] in each pixel. *)
Definition toy_backward (m : nat) (X g : tensor) : tensor :=
  mkTensor (shape X)
    (map (fun _ => (nth 0 (data g) 0 - nth 1 (data g) 0)%Q) (data X)).

Definition toy_pool (x : tensor) : tensor :=
  match rev (shape x) with
  | w :: h :: c :: r =>
      mkTensor (rev r ++ [c; h / 2; w / 2])%nat
        (repeat 0%Q (numel (rev r ++ [c; h / 2; w / 2])%nat))
  | _ => x
  end.

Definition toy_image : tensor := mkTensor [1; 1; 1]%nat [2%Q].
Definition toy_image_neg : tensor := mkTensor [1; 1; 1]%nat [(-2)%Q].

Definition flag_of_string (s : string) : option flag :=
  if String.eqb s "--main_dir" then Some MainDir
  else if String.eqb s "--interpret_path" then Some InterpretPath
  else if String.eqb s "--weights_dir" then Some WeightsDir
  else if String.eqb s "--image_size" then Some ImageSize
  else if String.eqb s "--depth" then Some Depth
  else if String.eqb s "--plot_interpret" then Some PlotInterpret
  else if String.eqb s "--plot_size" then Some PlotSize
  else None.

(** Option strings written in full, each followed by its value. *)
Fixpoint toy_scan (args : list string) : Z + list (flag * string) :=
  match args with
  | [] => inr []
  | o :: v :: rest =>
      match flag_of_string o, toy_scan rest with
      | Some f, inr occs => inr ((f, v) :: occs)
      | _, _ => inl 2
      end
  | _ => inl 2
  end.

Definition toy_int (s : string) : option Z :=
  option_map Z.of_int (NilZero.int_of_string s).

Definition toy : framework :=
  mkFramework nat toy_named_modules toy_call1 toy_call2 toy_backward
    (fun m => m) (fun m => m) toy_pool
    (fun _ => O) (fun _ _ => (toy_image, toy_image))
    (fun _ => false)
    (fun d l => fold_left (fun a s => (a ++ "/" ++ s)%string) l d)
    [] toy_scan toy_int.

(** ** Further observations *)

Definition flag_eqb (f g : flag) : bool :=
  match f, g with
  | MainDir, MainDir | InterpretPath, InterpretPath | WeightsDir, WeightsDir
  | ImageSize, ImageSize | Depth, Depth | PlotInterpret, PlotInterpret
  | PlotSize, PlotSize => true
  | _, _ => false
  end.

(** The value given with the last occurrence of option [f]. *)
Fixpoint last_value (f : flag) (occs : list (flag * string)) : option string :=
  match occs with
  | [] => None
  | occ :: rest =>
      match last_value f rest with
      | Some v => Some v
      | None => if flag_eqb (fst occ) f then Some (snd occ) else None
      end
  end.

(** The attribute of the namespace an option is stored in. *)
Definition attribute (f : flag) (ns : Namespace) : string + Z :=
  match f with
  | MainDir => inl (main_dir ns)
  | InterpretPath => inl (interpret_path ns)
  | WeightsDir => inl (weights_dir ns)
  | ImageSize => inr (image_size ns)
  | Depth => inr (depth ns)
  | PlotInterpret => inl (plot_interpret ns)
  | PlotSize => inr (plot_size ns)
  end.

(** The value an option string stands for under the [type] and [choices]
    of its declaration, when it is accepted. *)
Definition converted (F : framework) (f : flag) (v : string) : option (string + Z) :=
  match f with
  | MainDir | InterpretPath | WeightsDir => Some (inl v)
  | ImageSize | Depth | PlotSize => option_map inr (py_int F v)
  | PlotInterpret =>
      if in_choices v plot_interpret_choices then Some (inl v) else None
  end.


(** The run does not exhaust the recursion budget. *)
Definition halts {A} (m : M A) : Prop := snd m <> OutOfFuel.

(** [m] halts, and a value it returns satisfies [Q]. *)
Definition halting {A} (Q : A -> Prop) (m : M A) : Prop :=
  snd m <> OutOfFuel /\ forall a, snd m = Ret a -> Q a.

(** [m] returns a value satisfying [Q], its forward passes having been
    applied to exactly the tensors [xs], in that order. *)
Definition passes {A} (m : M A) (xs : list tensor) (Q : A -> Prop) : Prop :=
  exists tr a, m = (tr, Ret a) /\ forwarded tr = xs /\ Q a.

(** The outputs of a chain of blocks, each applied to the output of the one
    before, the first to [x]. *)
Fixpoint chain_outputs (F : framework) (blocks : list (module F)) (x : tensor)
  : list tensor :=
  match blocks with
  | [] => []
  | b :: blocks' => call1 F b x :: chain_outputs F blocks' (call1 F b x)
  end.

(** The pairs handed to the up blocks: around [dep_list[i + 1]] pooled
    [n] times and [dep_list[i]] pooled once, for [i] below [k]. *)
Definition up_inputs (F : framework) (n k : nat) (dep_list : list tensor)
  : list tensor :=
  flat_map (fun i =>
              [Nat.iter n (avg_pool2d F) (nth (i + 1) dep_list (mkTensor [] []));
               avg_pool2d F (nth i dep_list (mkTensor [] []))])
           (seq 0 k).

(** The gradient with respect to [X] has the shape of [X]. *)
Definition grad_shape (F : framework) : Prop :=
  forall m X g, shape (backward F m X g) = shape X.


(** * Properties *)

(** ** The trace monad *)

Lemma bind_ret {A B} (tr : list event) (a : A) (k : A -> M B) :
  bind (tr, Ret a) k = (tr ++ fst (k a), snd (k a)).
Proof. unfold bind. destruct (k a); reflexivity. Qed.

Lemma bind_lift_ret {A B} (a : A) (k : A -> M B) : bind (lift (Ret a)) k = k a.
Proof. unfold lift. rewrite bind_ret. destruct (k a); reflexivity. Qed.

Lemma bind_emit {B} (e : event) (k : unit -> M B) :
  bind (emit e) k = (e :: fst (k tt), snd (k tt)).
Proof. unfold emit. rewrite bind_ret. reflexivity. Qed.

(** A bound computation returns exactly when both parts do. *)
Lemma bind_returns_inv {A B} (m : M A) (k : A -> M B) (b : B) :
  snd (bind m k) = Ret b ->
  exists a, snd m = Ret a /\ snd (k a) = Ret b
            /\ fst (bind m k) = fst m ++ fst (k a).
Proof.
  destruct m as [tr [a | e |]]; simpl; try discriminate.
  intros H. exists a. destruct (k a) as [tr' o']. simpl in *. auto.
Qed.

(** The trace of the first part is a prefix of the trace of the whole. *)
Lemma bind_trace {A B} (m : M A) (k : A -> M B) :
  fst (bind m k) = fst m ++ match snd m with
                            | Ret a => fst (k a)
                            | _ => []
                            end.
Proof.
  destruct m as [tr [a | e |]]; simpl; try (now rewrite app_nil_r).
  destruct (k a); reflexivity.
Qed.

Lemma saved_app (t1 t2 : list event) : saved (t1 ++ t2) = saved t1 ++ saved t2.
Proof. apply flat_map_app. Qed.


(** ** [do_pooling] *)

Section PoolingFacts.

Variable F : framework.

Lemma do_pooling_enough_fuel (fuel : nat) :
  forall dep d, 2 <= dep -> (Z.to_nat (dep - 1) <= fuel)%nat ->
    do_pooling F fuel dep d
    = Ret (Nat.iter (Z.to_nat (dep - 1)) (avg_pool2d F) d).
Proof.
  induction fuel as [| fuel IH]; intros dep d Hdep Hfuel.
  - lia.
  - simpl. destruct (dep - 1 =? 1) eqn:E.
    + apply Z.eqb_eq in E. replace (Z.to_nat (dep - 1)) with 1%nat by lia.
      reflexivity.
    + apply Z.eqb_neq in E.
      rewrite IH by lia. simpl.
      replace (Z.to_nat (dep - 1)) with (S (Z.to_nat (dep - 1 - 1))) by lia.
      reflexivity.
Qed.

Lemma do_pooling_never_base (dep : Z) (k : nat) :
  dep <= 1 -> do_pooling_base (do_pooling_arg dep k) = false.
Proof.
  intros H. unfold do_pooling_base, do_pooling_arg. apply Z.eqb_neq. lia.
Qed.

Lemma do_pooling_diverges (fuel : nat) :
  forall dep d, dep <= 1 -> do_pooling F fuel dep d = OutOfFuel.
Proof.
  induction fuel as [| fuel IH]; intros dep d Hdep; simpl.
  - reflexivity.
  - destruct (dep - 1 =? 1) eqn:E.
    + apply Z.eqb_eq in E. lia.
    + rewrite IH by lia. reflexivity.
Qed.

(** With a budget below [dep - 1] the base case is not reached either. *)
Lemma do_pooling_short_fuel (fuel : nat) :
  forall dep d, (fuel < Z.to_nat (dep - 1))%nat ->
    do_pooling F fuel dep d = OutOfFuel.
Proof.
  induction fuel as [| fuel IH]; intros dep d Hfuel; simpl.
  - reflexivity.
  - destruct (dep - 1 =? 1) eqn:E.
    + apply Z.eqb_eq in E. lia.
    + rewrite IH by lia. reflexivity.
Qed.

End PoolingFacts.

Lemma iter_pool_halves (F : framework) (d : tensor) (h w : nat) :
  pool_halves F -> spatial d = Some (h, w) ->
  forall n,
    spatial (Nat.iter n (avg_pool2d F) d) = Some (h / 2 ^ n, w / 2 ^ n)%nat.
Proof.
  intros Hpool Hd. induction n as [| n IH].
  - change (2 ^ 0)%nat with 1%nat. now rewrite !Nat.div_1_r.
  - rewrite Nat.iter_succ. rewrite (Hpool _ _ _ IH).
    rewrite !Nat.Div0.div_div. rewrite Nat.pow_succ_r', (Nat.mul_comm 2).
    reflexivity.
Qed.

(** C2.  For every [dep >= 2] and every tensor [d], [do_pooling(dep, d)]
    returns, as soon as the recursion budget allows [dep - 1] nested calls,
    the tensor obtained by applying the 2x2 average pooling [dep - 1] times
    to [d]; with a pooling that halves the spatial dimensions, each is
    halved [dep - 1] times.  For every [dep <= 1] the base-case test fails
    at every nesting level and no budget lets the call return. *)
Theorem do_pooling_spec (F : framework) (dep : Z) (d : tensor) :
  (2 <= dep ->
   forall fuel, (Z.to_nat (dep - 1) <= fuel)%nat ->
     do_pooling F fuel dep d
     = Ret (Nat.iter (Z.to_nat (dep - 1)) (avg_pool2d F) d)
     /\ (pool_halves F ->
         forall h w, spatial d = Some (h, w) ->
           spatial (Nat.iter (Z.to_nat (dep - 1)) (avg_pool2d F) d)
           = Some (h / 2 ^ Z.to_nat (dep - 1), w / 2 ^ Z.to_nat (dep - 1))%nat))
  /\ (dep <= 1 ->
      (forall k, do_pooling_base (do_pooling_arg dep k) = false)
      /\ (forall fuel, do_pooling F fuel dep d = OutOfFuel)).
Proof.
  split.
  - intros Hdep fuel Hfuel. split.
    + now apply do_pooling_enough_fuel.
    + intros Hpool h w Hd. now apply iter_pool_halves.
  - intros Hdep. split.
    + intros k. now apply do_pooling_never_base.
    + intros fuel. now apply do_pooling_diverges.
Qed.

Lemma toy_pool_halves : pool_halves toy.
Proof.
  intros x h w. change (avg_pool2d toy x) with (toy_pool x).
  unfold spatial, toy_pool.
  destruct (rev (shape x)) as [| w' [| h' [| c r]]]; try discriminate.
  intros H. inversion H; subst. cbn [shape].
  rewrite rev_app_distr. reflexivity.
Qed.

Lemma do_pooling_spec_witness :
  do_pooling toy 2 3 (mkTensor [1; 1; 8; 8]%nat [])
  = Ret (toy_pool (toy_pool (mkTensor [1; 1; 8; 8]%nat [])))
  /\ spatial (toy_pool (toy_pool (mkTensor [1; 1; 8; 8]%nat [])))
     = Some (2, 2)%nat
  /\ do_pooling toy 9 1 (mkTensor [1; 1; 8; 8]%nat []) = OutOfFuel.
Proof.
  destruct (proj1 (do_pooling_spec toy 3 (mkTensor [1; 1; 8; 8]%nat []))
              ltac:(lia) 2%nat ltac:(simpl; lia)) as [Hrun Hshape].
  split; [exact Hrun |]. split.
  - apply (Hshape toy_pool_halves 8%nat 8%nat). reflexivity.
  - apply (proj2 (do_pooling_spec toy 1 (mkTensor [1; 1; 8; 8]%nat []))).
    lia.
Defined.

(** ** [get_values] and [get_block_list] *)

Section BlockListFacts.

Variable F : framework.

Lemma first_named_in {Mod : Type} (cl : list (string * Mod)) (key : string) :
  (exists m, In (key, m) cl) <-> (exists m, first_named cl key = Some m).
Proof.
  induction cl as [| [name m0] cl IH]; simpl.
  - split; intros [m H]; [contradiction | discriminate].
  - destruct (String.eqb key name) eqn:E.
    + apply String.eqb_eq in E. subst name. split; intros _; eauto.
    + apply String.eqb_neq in E. rewrite <- IH. split.
      * intros [m [H | H]]; [inversion H; congruence | eauto].
      * intros [m H]. eauto.
Qed.

(** The head of the filtered list is the first entry with that name. *)
Lemma get_values_head (cl : list (string * module F)) (key : string) :
  obind (getitem (get_values F cl key) 0) (fun entry => Ret (snd entry))
  = match first_named cl key with
    | Some m => Ret m
    | None => Raise IndexError
    end.
Proof.
  induction cl as [| [name m0] cl IH]; simpl.
  - reflexivity.
  - unfold tuple_contains. simpl. destruct (String.eqb key name); auto.
Qed.

Lemma getitem_map_seq {A} (f : nat -> A) (n x : nat) :
  (x < n)%nat -> getitem (map f (seq 0 n)) x = Ret (f x).
Proof.
  intros H. unfold getitem. rewrite nth_error_map.
  rewrite nth_error_nth' with (d := O) by (rewrite length_seq; lia).
  rewrite seq_nth by lia. reflexivity.
Qed.

Lemma first_module_seq (cl : list (string * module F)) (pat : nat -> string)
  (n x : nat) :
  (x < n)%nat ->
  first_module F (map (fun y => get_values F cl (pat y)) (seq 0 n)) x
  = match first_named cl (pat x) with
    | Some m => Ret m
    | None => Raise IndexError
    end.
Proof.
  intros H. unfold first_module. rewrite getitem_map_seq by assumption.
  simpl. apply get_values_head.
Qed.

Lemma collect_select (cl : list (string * module F)) (pat : nat -> string)
  (n : nat) (xs : list nat) :
  Forall (fun x => (x < n)%nat) xs ->
  forall acc,
    collect F (map (fun y => get_values F cl (pat y)) (seq 0 n)) xs acc
    = match select_blocks cl pat xs with
      | Some l => Ret (acc ++ l)
      | None => Raise IndexError
      end.
Proof.
  induction 1 as [| x xs Hx Hxs IH]; intros acc; simpl.
  - now rewrite app_nil_r.
  - rewrite first_module_seq by assumption.
    destruct (first_named cl (pat x)) as [m |]; simpl; [| reflexivity].
    rewrite IH. destruct (select_blocks cl pat xs); [| reflexivity].
    now rewrite <- app_assoc.
Qed.

Lemma seq_below (n : nat) : Forall (fun x => (x < n)%nat) (seq 0 n).
Proof. apply Forall_forall. intros x Hx. apply in_seq in Hx. lia. Qed.

(** [get_block_list] in closed form. *)
Lemma get_block_list_select (cl : list (string * module F)) (args : Namespace) :
  get_block_list F cl args
  = match select_blocks cl down_pattern (range (depth args)),
          select_blocks cl up_pattern (range (depth args - 1)) with
    | Some down, Some up => Ret (down, up)
    | _, _ => Raise IndexError
    end.
Proof.
  unfold get_block_list, range.
  rewrite (collect_select cl down_pattern) by apply seq_below.
  destruct (select_blocks cl down_pattern _) as [down |]; simpl; [| reflexivity].
  rewrite (collect_select cl up_pattern) by apply seq_below.
  destruct (select_blocks cl up_pattern _) as [up |]; reflexivity.
Qed.

End BlockListFacts.

Lemma select_blocks_some {Mod : Type} (cl : list (string * Mod))
  (pat : nat -> string) (xs : list nat) (l : list Mod) :
  select_blocks cl pat xs = Some l <->
  Forall2 (fun x m => first_named cl (pat x) = Some m) xs l.
Proof.
  revert l. induction xs as [| x xs IH]; intros l; simpl.
  - split; intros H; [inversion H; constructor | inversion H; reflexivity].
  - destruct (first_named cl (pat x)) as [m |] eqn:E.
    + destruct (select_blocks cl pat xs) as [l' |].
      * split; intros H.
        -- inversion H; subst. constructor; [assumption | now apply IH].
        -- inversion H as [| ? m' ? l'' Hm Hl]; subst.
           apply IH in Hl. congruence.
      * split; intros H; [discriminate |].
        inversion H as [| ? m' ? l'' Hm Hl]; subst.
        apply IH in Hl. discriminate.
    + split; intros H; [discriminate |].
      inversion H; subst. congruence.
Qed.

Lemma select_blocks_total {Mod : Type} (cl : list (string * Mod))
  (pat : nat -> string) (xs : list nat) :
  (forall x, In x xs -> exists m, In (pat x, m) cl) <->
  (exists l, select_blocks cl pat xs = Some l).
Proof.
  induction xs as [| x xs IH]; simpl.
  - split; eauto. intros _ x [].
  - split.
    + intros H.
      destruct (proj1 (first_named_in cl (pat x)) (H x (or_introl eq_refl)))
        as [m Hm].
      rewrite Hm.
      destruct (proj1 IH (fun y Hy => H y (or_intror Hy))) as [l Hl].
      rewrite Hl. eauto.
    + intros [l Hl] y [-> | Hy].
      * apply first_named_in.
        destruct (first_named cl (pat y)); [eauto | discriminate].
      * apply (proj2 IH); [| assumption].
        destruct (first_named cl (pat x)); [| discriminate].
        destruct (select_blocks cl pat xs); [eauto | discriminate].
Qed.

Lemma Forall2_seq_nth {Mod : Type} (P : nat -> Mod -> Prop) (n : nat) :
  forall a (l : list Mod),
    Forall2 P (seq a n) l ->
    List.length l = n
    /\ forall y m, nth_error l y = Some m -> P (a + y)%nat m.
Proof.
  induction n as [| n IH]; intros a l H; simpl in H.
  - inversion H. split; [reflexivity |]. intros [| y] m Hm; discriminate.
  - inversion H as [| ? m0 ? l' Hm0 Hl']; subst.
    destruct (IH _ _ Hl') as [Hlen Hnth]. split; [simpl; lia |].
    intros [| y] m Hm; simpl in Hm.
    + inversion Hm; subst. now rewrite Nat.add_0_r.
    + replace (a + S y)%nat with (S a + y)%nat by lia. now apply Hnth.
Qed.

Lemma select_blocks_seq {Mod : Type} (cl : list (string * Mod))
  (pat : nat -> string) (n : nat) (l : list Mod) :
  select_blocks cl pat (seq 0 n) = Some l ->
  List.length l = n
  /\ forall y, (y < n)%nat -> nth_error l y = first_named cl (pat y).
Proof.
  intros H. apply select_blocks_some in H.
  destruct (Forall2_seq_nth _ _ _ _ H) as [Hlen Hnth].
  split; [assumption |]. intros y Hy.
  destruct (nth_error l y) as [m |] eqn:E.
  - symmetry. apply (Hnth y m E).
  - apply nth_error_None in E. lia.
Qed.

Lemma blocks_present_select {Mod : Type} (cl : list (string * Mod)) (d : Z) :
  blocks_present cl d <->
  exists down up,
    select_blocks cl down_pattern (range d) = Some down
    /\ select_blocks cl up_pattern (range (d - 1)) = Some up.
Proof.
  unfold blocks_present, has_block, range. split.
  - intros [Hd Hu].
    destruct (proj1 (select_blocks_total cl down_pattern (seq 0 (Z.to_nat d))))
      as [down Hdown].
    { intros x Hx. apply in_seq in Hx. apply Hd. lia. }
    destruct (proj1 (select_blocks_total cl up_pattern (seq 0 (Z.to_nat (d - 1)))))
      as [up Hup].
    { intros x Hx. apply in_seq in Hx. apply Hu. lia. }
    eauto.
  - intros (down & up & Hdown & Hup). split; intros y Hy.
    + apply (proj2 (select_blocks_total cl down_pattern (seq 0 (Z.to_nat d)))).
      * eauto.
      * apply in_seq. lia.
    + apply (proj2 (select_blocks_total cl up_pattern (seq 0 (Z.to_nat (d - 1))))).
      * eauto.
      * apply in_seq. lia.
Qed.

(** C4 (amended).  When, for every [y < depth], the child list has an entry
    whose name is exactly ['down_path.y'], and for every [y < depth - 1] one
    whose name is exactly ['up_path.y'], [get_block_list] returns a down
    list of length [max(depth, 0)] and an up list of length
    [max(depth - 1, 0)], whose elements are the modules of the first entries
    so named, in list order.  When some pattern names no entry, the [[0]]
    index raises [IndexError]. *)
Theorem get_block_list_spec (F : framework)
  (child_list : list (string * module F)) (args : Namespace) :
  (blocks_present child_list (depth args) ->
   exists down up,
     get_block_list F child_list args = Ret (down, up)
     /\ len down = Z.max 0 (depth args)
     /\ len up = Z.max 0 (depth args - 1)
     /\ (forall y, (y < Z.to_nat (depth args))%nat ->
           nth_error down y = first_named child_list (down_pattern y))
     /\ (forall y, (y < Z.to_nat (depth args - 1))%nat ->
           nth_error up y = first_named child_list (up_pattern y)))
  /\ (~ blocks_present child_list (depth args) ->
      get_block_list F child_list args = Raise IndexError).
Proof.
  rewrite get_block_list_select. split.
  - intros H. apply blocks_present_select in H.
    destruct H as (down & up & Hdown & Hup).
    rewrite Hdown, Hup. exists down, up.
    apply select_blocks_seq in Hdown. apply select_blocks_seq in Hup.
    destruct Hdown as [Hld Hnd], Hup as [Hlu Hnu]. unfold len.
    repeat split; auto; lia.
  - intros H.
    destruct (select_blocks child_list down_pattern (range (depth args)))
      as [down |] eqn:Hdown; [| reflexivity].
    destruct (select_blocks child_list up_pattern (range (depth args - 1)))
      as [up |] eqn:Hup; [| reflexivity].
    exfalso. apply H. apply blocks_present_select. eauto.
Qed.

Lemma get_block_list_spec_witness :
  exists down up,
    get_block_list toy (toy_named_modules 0)
      (mkNamespace "" "" "" 64 3 "block_filters" 128) = Ret (down, up)
    /\ len down = 3 /\ len up = 2.
Proof.
  destruct (proj1 (get_block_list_spec toy (toy_named_modules 0)
                     (mkNamespace "" "" "" 64 3 "block_filters" 128)))
    as (down & up & H & Hd & Hu & _).
  - split; intros y Hy; simpl in Hy.
    + destruct y as [| [| [| y]]]; [| | | lia]; eexists; simpl; eauto 10.
    + destruct y as [| [| y]]; [| | lia]; eexists; simpl; eauto 10.
  - exists down, up. auto.
Defined.

(** C4 as stated fails.  A child list whose only entry is named
    ['down_path.0.block'] contains the pattern ['down_path.0'] inside a
    name, yet no entry is selected and [get_block_list] raises; and at
    depth 0, where nothing is required, the up list has length 0 and not
    [depth - 1]. *)
Lemma get_block_list_substring_counterexample :
  (blocks_present_by_substring [("down_path.0.block"%string, 11%nat)] 1
   /\ get_block_list toy [("down_path.0.block"%string, 11%nat)]
        (mkNamespace "" "" "" 64 1 "block_filters" 128)
      = Raise IndexError)
  /\ (blocks_present_by_substring (@nil (string * nat)) 0
      /\ exists down up,
           get_block_list toy [] (mkNamespace "" "" "" 64 0 "block_filters" 128)
           = Ret (down, up)
           /\ len up <> 0 - 1).
Proof.
  split; split.
  - split; intros y Hy; [| lia].
    assert (y = 0) by lia. subst y.
    exists ("down_path.0.block"%string, 11%nat). split; [now left | reflexivity].
  - reflexivity.
  - split; intros y Hy; lia.
  - exists [], []. split; [reflexivity | discriminate].
Qed.

(** ** [sensitivity_analysis]: the post-processing step *)




Section SensitivityFacts.

Variable F : framework.


(** An exception of the gradient computation leaves before the
    post-processing step is reached. *)
Lemma sensitivity_analysis_raise_first (model : module F) (img : tensor)
  (tc : option Z) (pp : pyval) (tr : list event) (e : exn) :
  relevance_map F model img tc = (tr, Raise e) ->
  sensitivity_analysis F model img tc pp = (tr, Raise e).
Proof. intros H. unfold sensitivity_analysis. now rewrite H. Qed.

Lemma sensitivity_analysis_returns_inv (model : module F) (img : tensor)
  (tc : option Z) (pp : pyval) (m : tensor) :
  snd (sensitivity_analysis F model img tc pp) = Ret m ->
  exists r, snd (relevance_map F model img tc) = Ret r
            /\ postprocess_map r pp = Ret m.
Proof.
  unfold sensitivity_analysis. intros H.
  apply bind_returns_inv in H. destruct H as (r & Hr & Hm & _).
  exists r. auto.
Qed.

End SensitivityFacts.

(** With two classes, [target_class=5] is refused at line 170, whatever
    [postprocess] is. *)
Example sensitivity_analysis_bad_target :
  sensitivity_analysis toy 0%nat toy_image (Some 5) (PyStr "abs")
  = ([Forward [unsqueeze0 toy_image]], Raise IndexError)
  /\ sensitivity_analysis toy 0%nat toy_image (Some 5) (PyStr "relu")
     = ([Forward [unsqueeze0 toy_image]], Raise IndexError).
Proof. split; reflexivity. Qed.



(** ** Sign of the returned map *)






(** ** The weights handed to [backward] *)

Lemma argmax_from_spec (l : list Q) :
  forall best besti i,
    let r := argmax_from best besti i l in
    (r = besti /\ Forall (fun x => (x <= best)%Q) l)
    \/ ((i <= r < i + List.length l)%nat
        /\ (best <= nth (r - i) l 0)%Q
        /\ Forall (fun x => (x <= nth (r - i) l 0)%Q) l).
Proof.
  induction l as [| x l IH]; intros best besti i; simpl.
  - left. split; [reflexivity | constructor].
  - destruct (Qle_bool x best) eqn:E.
    + apply Qle_bool_iff in E.
      destruct (IH best besti (S i)) as [[Hr Hall] | (Hr & Hb & Hall)].
      * left. split; [assumption | now constructor].
      * right.
        replace (argmax_from best besti (S i) l - i)%nat
          with (S (argmax_from best besti (S i) l - S i)) by lia.
        split; [lia |]. split; [assumption |].
        constructor; [eapply Qle_trans; eassumption | assumption].
    + assert (Hlt : (best <= x)%Q).
      { apply Qlt_le_weak. apply Qnot_le_lt. intros H.
        apply Qle_bool_iff in H. congruence. }
      right.
      destruct (IH x i (S i)) as [[Hr Hall] | (Hr & Hb & Hall)].
      * rewrite Hr. replace (i - i)%nat with O by lia.
        split; [lia |]. split; [assumption |].
        constructor; [apply Qle_refl | assumption].
      * replace (argmax_from x i (S i) l - i)%nat
          with (S (argmax_from x i (S i) l - S i)) by lia.
        split; [lia |]. split; [eapply Qle_trans; eassumption |].
        constructor; assumption.
Qed.

(** [argmax] points into a non-empty list, at a maximal entry. *)
Lemma argmax_spec (l : list Q) :
  l <> [] ->
  (argmax l < List.length l)%nat
  /\ Forall (fun x => (x <= nth (argmax l) l 0)%Q) l.
Proof.
  destruct l as [| x l]; [congruence |]. intros _. unfold argmax.
  destruct (argmax_from_spec l x 0%nat 1%nat) as [[Hr Hall] | (Hr & Hb & Hall)].
  - rewrite Hr. simpl. split; [lia |].
    constructor; [apply Qle_refl | assumption].
  - remember (argmax_from x 0 1 l) as r.
    destruct r as [| r]; [lia |].
    replace (S r - 1)%nat with r in * by lia.
    simpl. split; [lia |]. constructor; assumption.
Qed.

Lemma class_scores_nth (output : tensor) (C c : nat) :
  (c < C)%nat ->
  nth c (class_scores output C 1 0) 0%Q = nth c (data output) 0%Q.
Proof.
  intros H. unfold class_scores, entry.
  rewrite nth_indep with (d' := nth (0 * 1 + 0) (data output) 0%Q)
    by (rewrite length_map, length_seq; lia).
  change (nth (0 * 1 + 0) (data output) 0%Q)
    with ((fun c => nth (c * 1 + 0) (data output) 0%Q) O).
  rewrite map_nth. rewrite seq_nth by lia. f_equal. lia.
Qed.

Lemma nth_map_combine_seq {A B} (g : nat * A -> B) (l : list A) (i : nat)
  (d : B) (a : A) :
  (i < List.length l)%nat ->
  nth i (map g (combine (seq 0 (List.length l)) l)) d = g (i, nth i l a).
Proof.
  intros H.
  rewrite nth_indep with (d' := g (O, a))
    by (rewrite length_map, length_combine, length_seq; lia).
  rewrite map_nth. rewrite combine_nth by apply length_seq.
  rewrite seq_nth by lia. reflexivity.
Qed.

Lemma set_classes_data (t : tensor) (b C : nat) (rest : list nat)
  (classes : list nat) :
  shape t = b :: C :: rest ->
  shape (set_classes t classes) = shape t
  /\ List.length (data (set_classes t classes)) = List.length (data t)
  /\ forall i, (i < List.length (data t))%nat ->
       nth i (data (set_classes t classes)) 0%Q
       = if ((i <? C * numel rest)%nat
             && existsb (Nat.eqb (i / numel rest)) classes)%bool
         then 1%Q else nth i (data t) 0%Q.
Proof.
  intros Hs. unfold set_classes. rewrite Hs. cbn [shape data].
  split; [reflexivity |]. split.
  - rewrite length_map, length_combine, length_seq. apply Nat.min_id.
  - intros i Hi.
    rewrite nth_map_combine_seq with (a := 0%Q) by assumption.
    reflexivity.
Qed.

(** On an output with one position per class, setting class [c] in a
    tensor of zeros leaves a single one, at [c]. *)
Lemma set_classes_single (b C : nat) (rest : list nat) (c : nat) :
  numel rest = 1%nat -> (c < C)%nat ->
  single_one (set_classes (zeros (S b :: C :: rest)) [c]) c.
Proof.
  intros HP Hc.
  destruct (set_classes_data (zeros (S b :: C :: rest)) (S b) C rest [c] eq_refl)
    as (_ & Hlen & Hnth).
  assert (Hz : List.length (data (zeros (S b :: C :: rest))) = (C + b * C)%nat).
  { unfold zeros. cbn [data]. rewrite repeat_length.
    change (numel (S b :: C :: rest)) with (S b * (C * numel rest))%nat.
    rewrite HP. lia. }
  unfold single_one. rewrite Hlen, Hz. split; [lia |]. intros i Hi.
  rewrite Hnth by (rewrite Hz; assumption).
  rewrite HP, Nat.div_1_r. cbn [existsb]. rewrite orb_false_r.
  unfold zeros. cbn [data]. rewrite nth_repeat.
  destruct (Nat.eqb_spec i c) as [-> | Hne].
  - replace (c <? C * 1)%nat with true by (symmetry; apply Nat.ltb_lt; lia).
    reflexivity.
  - now rewrite andb_false_r.
Qed.

Lemma py_index_range (n : nat) (i : Z) (c : nat) :
  py_index n i = Ret c ->
  (c < n)%nat
  /\ (0 <= i -> c = Z.to_nat i)
  /\ (i < 0 -> Z.of_nat c = Z.of_nat n + i).
Proof.
  unfold py_index.
  destruct ((0 <=? i) && (i <? Z.of_nat n))%bool eqn:E1.
  - apply andb_prop in E1. destruct E1 as [H1 H2].
    apply Z.leb_le in H1. apply Z.ltb_lt in H2.
    intros H. inversion H. lia.
  - destruct ((- Z.of_nat n <=? i) && (i <? 0))%bool eqn:E2; [| discriminate].
    apply andb_prop in E2. destruct E2 as [H1 H2].
    apply Z.leb_le in H1. apply Z.ltb_lt in H2.
    intros H. inversion H. lia.
Qed.

Lemma one_hot_output_single (output : tensor) (target_class : option Z)
  (b C' : nat) (rest : list nat) (c : nat) :
  shape output = S b :: S C' :: rest ->
  numel rest = 1%nat ->
  match target_class with
  | None => c = argmax (class_scores output (S C') 1 0)
  | Some t => py_index (S C') t = Ret c
  end ->
  (c < S C')%nat
  /\ one_hot_output_of output target_class
     = Ret (set_classes (zeros (shape output)) [c]).
Proof.
  intros Hs HP Hc. unfold one_hot_output_of, output_class_of, num_classes.
  rewrite Hs, HP. cbn [seq map obind].
  destruct target_class as [t |].
  - rewrite Hc. cbn [obind]. split; [| reflexivity].
    now apply py_index_range in Hc.
  - subst c. split; [| reflexivity].
    destruct (argmax_spec (class_scores output (S C') 1 0)) as [Hlt _].
    + unfold class_scores. simpl. discriminate.
    + unfold class_scores in Hlt at 2. now rewrite length_map, length_seq in Hlt.
Qed.

Lemma argmax_maximal (output : tensor) (C' : nat) (c' : nat) :
  (c' < S C')%nat ->
  (nth c' (data output) 0
   <= nth (argmax (class_scores output (S C') 1 0)) (data output) 0)%Q.
Proof.
  intros Hc'.
  destruct (argmax_spec (class_scores output (S C') 1 0)) as [Hlt Hall].
  { unfold class_scores. simpl. discriminate. }
  assert (Hlen : List.length (class_scores output (S C') 1 0) = S C').
  { unfold class_scores. now rewrite length_map, length_seq. }
  rewrite Hlen in Hlt.
  rewrite <- (class_scores_nth output (S C') c') by assumption.
  rewrite <- (class_scores_nth output (S C')
                (argmax (class_scores output (S C') 1 0))) by assumption.
  rewrite Forall_forall in Hall. apply Hall. apply nth_In. lia.
Qed.

(** C5 (amended).  For a model output with one score per class (a single
    position, as for shape (1, C)): when [target_class] is [None] the
    weights handed to [backward] hold a single one, at the index of a
    maximal entry of the output (the predicted class); when [target_class]
    is a valid index the single one is at [target_class] (counted from the
    end when negative).  The gradient map is [X.grad[0]] for these weights,
    and the returned heatmap is that map after the post-processing step,
    hence the map itself for [postprocess=None]. *)
Theorem sensitivity_analysis_target (F : framework) (model : module F)
  (image_tensor : tensor) (target_class : option Z)
  (b C' : nat) (rest : list nat) (c : nat) :
  let X := unsqueeze0 image_tensor in
  let net := eval F (cpu F model) in
  let output := call1 F net X in
  shape output = S b :: S C' :: rest ->
  numel rest = 1%nat ->
  match target_class with
  | None => c = argmax (class_scores output (S C') 1 0)
  | Some t => py_index (S C') t = Ret c
  end ->
  exists w,
    one_hot_output_of output target_class = Ret w
    /\ single_one w c
    /\ (target_class = None ->
        forall c', (c' < S C')%nat ->
          (nth c' (data output) 0 <= nth c (data output) 0)%Q)
    /\ (forall t, target_class = Some t ->
          (0 <= t -> c = Z.to_nat t)
          /\ (t < 0 -> Z.of_nat c = Z.of_nat (S C') + t))
    /\ relevance_map F model image_tensor target_class
       = ([Forward [X]], tindex (backward F net X w) 0)
    /\ (forall postprocess,
          sensitivity_analysis F model image_tensor target_class postprocess
          = ([Forward [X]],
             obind (tindex (backward F net X w) 0)
                   (fun r => postprocess_map r postprocess)))
    /\ sensitivity_analysis F model image_tensor target_class PyNone
       = relevance_map F model image_tensor target_class.
Proof.
  intros X net output Hs HP Hc.
  destruct (one_hot_output_single output target_class b C' rest c Hs HP Hc)
    as [Hlt Hw].
  exists (set_classes (zeros (shape output)) [c]).
  assert (Hrel : relevance_map F model image_tensor target_class
                 = ([Forward [X]],
                    tindex (backward F net X
                              (set_classes (zeros (shape output)) [c])) 0)).
  { unfold relevance_map, forward1. fold X. fold net.
    rewrite bind_emit. cbn [fst snd ret]. rewrite bind_ret.
    change (call1 F net X) with output.
    rewrite Hw, bind_lift_ret. reflexivity. }
  assert (Hsens : forall postprocess,
            sensitivity_analysis F model image_tensor target_class postprocess
            = ([Forward [X]],
               obind (tindex (backward F net X
                                (set_classes (zeros (shape output)) [c])) 0)
                     (fun r => postprocess_map r postprocess))).
  { intros pp. unfold sensitivity_analysis. rewrite Hrel.
    destruct (tindex _ 0) as [r | e |]; reflexivity. }
  split; [assumption |]. split.
  { rewrite Hs. now apply set_classes_single. }
  split.
  { intros -> c' Hc'. subst c. now apply argmax_maximal. }
  split.
  { intros t ->. apply py_index_range in Hc. tauto. }
  split; [assumption |]. split; [assumption |].
  rewrite Hsens, Hrel. destruct (tindex _ 0); reflexivity.
Qed.

Lemma sensitivity_analysis_target_witness :
  exists w,
    one_hot_output_of (toy_call1 0 (unsqueeze0 toy_image_neg)) None = Ret w
    /\ single_one w 1.
Proof.
  destruct (sensitivity_analysis_target toy 0%nat toy_image_neg None
              0%nat 1%nat [] 1%nat) as (w & Hw & H1 & _).
  - reflexivity.
  - reflexivity.
  - reflexivity.
  - exists w. split; assumption.
Defined.

(** C5 as stated fails.  With an output over two positions, the first
    scored highest for class 0 and the second for class 1, the weights are
    one at all four entries instead of at a single one; and with the
    default post-processing the returned heatmap is the absolute value of
    the gradient, here 1 for a gradient of -1. *)
Lemma sensitivity_analysis_target_counterexample :
  one_hot_output_of (toy_call1 7 (unsqueeze0 toy_image)) None
  = Ret (mkTensor [1; 2; 1; 2]%nat [1; 1; 1; 1]%Q)
  /\ (forall c, ~ single_one (mkTensor [1; 2; 1; 2]%nat [1; 1; 1; 1]%Q) c)
  /\ snd (relevance_map toy 0%nat toy_image_neg None)
     = Ret (mkTensor [1; 1; 1]%nat [(-1)%Q])
  /\ snd (sensitivity_analysis toy 0%nat toy_image_neg None (PyStr "abs"))
     = Ret (mkTensor [1; 1; 1]%nat [Qabs (-1)])
  /\ Qabs (-1) <> (-1)%Q.
Proof.
  split; [reflexivity |]. split.
  - intros c [_ H]. cbn [data List.length] in H.
    destruct c as [| c].
    + specialize (H 1%nat ltac:(lia)). simpl in H. discriminate.
    + specialize (H 0%nat ltac:(lia)). simpl in H. discriminate.
  - split; [reflexivity |]. split; [reflexivity |]. discriminate.
Qed.

(** ** [parse_args] *)

Section ParseArgsFacts.

Variable F : framework.

Lemma in_choices_iff (v : string) :
  in_choices v plot_interpret_choices = true
  <-> v = "sensitivity"%string \/ v = "block_filters"%string.
Proof.
  unfold in_choices, plot_interpret_choices. cbn [existsb].
  rewrite orb_false_r, orb_true_iff, !String.eqb_eq. tauto.
Qed.

(** An accepted occurrence is stored; only [--plot_interpret] changes the
    field [plot_interpret]. *)
Lemma store_accepted (ns : Namespace) (occ : flag * string) :
  accepted F occ = true ->
  exists ns', store F ns occ = Ret ns'
              /\ plot_interpret ns'
                 = if is_plot_interpret occ then snd occ else plot_interpret ns.
Proof.
  destruct occ as [f v]. unfold accepted, store, is_plot_interpret, convert_int.
  cbn [fst snd]. destruct f; intros H;
    try (eexists; split; reflexivity);
    try (destruct (py_int F v); [eexists; split; reflexivity | discriminate]).
  rewrite H. eexists; split; reflexivity.
Qed.

Lemma store_refused (ns : Namespace) (occ : flag * string) :
  accepted F occ = false -> store F ns occ = Raise (SystemExit 2).
Proof.
  destruct occ as [f v]. unfold accepted, store, convert_int.
  cbn [fst snd]. destruct f; intros H; try discriminate;
    try (destruct (py_int F v); [discriminate | reflexivity]).
  rewrite H. reflexivity.
Qed.

Lemma store_all_accepted (occs : list (flag * string)) :
  forall ns,
    forallb (accepted F) occs = true ->
    exists ns', store_all F occs ns = Ret ns'
                /\ plot_interpret ns'
                   = match last_plot_interpret occs with
                     | Some v => v
                     | None => plot_interpret ns
                     end.
Proof.
  induction occs as [| occ occs IH]; intros ns H; simpl in *.
  - eauto.
  - apply andb_prop in H. destruct H as [Hocc Hrest].
    destruct (store_accepted ns occ Hocc) as (ns1 & Hs & Hp).
    rewrite Hs. simpl.
    destruct (IH ns1 Hrest) as (ns' & Hs' & Hp').
    exists ns'. split; [assumption |]. rewrite Hp'.
    destruct (last_plot_interpret occs); [reflexivity |].
    rewrite Hp. destruct (is_plot_interpret occ); reflexivity.
Qed.

Lemma store_all_refused (occs : list (flag * string)) :
  forall ns,
    forallb (accepted F) occs = false ->
    store_all F occs ns = Raise (SystemExit 2).
Proof.
  induction occs as [| occ occs IH]; intros ns H; simpl in *.
  - discriminate.
  - destruct (accepted F occ) eqn:Hocc.
    + destruct (store_accepted ns occ Hocc) as (ns1 & Hs & _).
      rewrite Hs. simpl. apply IH. assumption.
    + rewrite store_refused by assumption. reflexivity.
Qed.

Lemma last_plot_interpret_in (occs : list (flag * string)) (v : string) :
  last_plot_interpret occs = Some v -> In (PlotInterpret, v) occs.
Proof.
  induction occs as [| [f w] occs IH]; simpl; [discriminate |].
  destruct (last_plot_interpret occs) as [u |].
  - intros H. right. apply IH. assumption.
  - unfold is_plot_interpret. cbn [fst snd]. destruct f; try discriminate.
    intros H. inversion H. now left.
Qed.

Lemma last_plot_interpret_none (occs : list (flag * string)) :
  last_plot_interpret occs = None <-> forall v, ~ In (PlotInterpret, v) occs.
Proof.
  induction occs as [| [f w] occs IH]; simpl.
  - split; auto.
  - destruct (last_plot_interpret occs) as [u |] eqn:E.
    + split; [discriminate |]. intros H. exfalso.
      apply (H u). right. now apply last_plot_interpret_in.
    + unfold is_plot_interpret. cbn [fst snd].
      destruct f; split; try discriminate; try reflexivity;
        try (intros _ v [Hv | Hv];
             [discriminate | now apply (proj1 IH eq_refl v)]).
      intros H. exfalso. apply (H w). now left.
Qed.

(** A successful parse leaves one of the two choices in [plot_interpret]. *)
Lemma parse_args_choice (args : list string) (ns : Namespace) :
  parse_args F args = Ret ns ->
  plot_interpret ns = "sensitivity"%string
  \/ plot_interpret ns = "block_filters"%string.
Proof.
  unfold parse_args. destruct (scan_args F args) as [code | occs]; [discriminate |].
  intros H.
  destruct (forallb (accepted F) occs) eqn:E.
  - destruct (store_all_accepted occs defaults E) as (ns' & Hs & Hp).
    rewrite Hs in H. inversion H; subst ns'. rewrite Hp.
    destruct (last_plot_interpret occs) as [v |] eqn:El.
    + apply last_plot_interpret_in in El.
      rewrite forallb_forall in E. specialize (E _ El).
      unfold accepted in E. cbn [fst snd] in E. now apply in_choices_iff.
    + now right.
  - rewrite store_all_refused in H by assumption. discriminate.
Qed.

End ParseArgsFacts.

(** C7.  Let the argument vector scan into the option occurrences [occs].
    A [--plot_interpret] value other than ['sensitivity'] and
    ['block_filters'] makes the parse fail.  When the values of the other
    options are accepted and every [--plot_interpret] value is one of the
    two, the parse succeeds and stores the value given (the last one, if
    the option is repeated), and ['block_filters'] when the option is
    absent.  No parse succeeds with another value stored. *)
Theorem parse_args_plot_interpret (F : framework) (args : list string)
  (occs : list (flag * string)) :
  scan_args F args = inr occs ->
  (forall v, In (PlotInterpret, v) occs ->
     v <> "sensitivity"%string -> v <> "block_filters"%string ->
     parse_args F args = Raise (SystemExit 2))
  /\ ((forall occ, In occ occs -> is_plot_interpret occ = false ->
         accepted F occ = true) ->
      (forall v, In (PlotInterpret, v) occs ->
         v = "sensitivity"%string \/ v = "block_filters"%string) ->
      exists ns,
        parse_args F args = Ret ns
        /\ (forall v, last_plot_interpret occs = Some v -> plot_interpret ns = v)
        /\ ((forall v, ~ In (PlotInterpret, v) occs) ->
            plot_interpret ns = "block_filters"%string))
  /\ (forall ns, parse_args F args = Ret ns ->
        plot_interpret ns = "sensitivity"%string
        \/ plot_interpret ns = "block_filters"%string).
Proof.
  intros Hscan. split; [| split].
  - intros v Hin H1 H2. unfold parse_args. rewrite Hscan.
    apply store_all_refused. apply not_true_is_false. intros Hall.
    rewrite forallb_forall in Hall. specialize (Hall _ Hin).
    unfold accepted in Hall. cbn [fst snd] in Hall.
    apply in_choices_iff in Hall. tauto.
  - intros Hother Hpi. unfold parse_args. rewrite Hscan.
    assert (Hall : forallb (accepted F) occs = true).
    { apply forallb_forall. intros [f v] Hin.
      destruct (is_plot_interpret (f, v)) eqn:E.
      - unfold is_plot_interpret in E. cbn [fst] in E.
        destruct f; try discriminate.
        unfold accepted. cbn [fst snd]. apply in_choices_iff. now apply Hpi.
      - now apply Hother. }
    destruct (store_all_accepted F occs defaults Hall) as (ns & Hs & Hp).
    exists ns. split; [assumption |]. split.
    + intros v Hv. rewrite Hp, Hv. reflexivity.
    + intros Habs. apply last_plot_interpret_none in Habs.
      rewrite Hp, Habs. reflexivity.
  - intros ns. apply parse_args_choice.
Qed.

Lemma parse_args_plot_interpret_witness :
  exists ns,
    parse_args toy ["--depth"; "4"; "--plot_interpret"; "sensitivity"]%string
    = Ret ns
    /\ plot_interpret ns = "sensitivity"%string.
Proof.
  destruct (proj1 (proj2 (parse_args_plot_interpret toy
              ["--depth"; "4"; "--plot_interpret"; "sensitivity"]%string
              [(Depth, "4"); (PlotInterpret, "sensitivity")]%string eq_refl)))
    as (ns & Hns & Hlast & _).
  - intros occ [<- | [<- | []]] H; [reflexivity | discriminate].
  - intros v [H | [H | []]]; [discriminate | inversion H; now left].
  - exists ns. split; [assumption |]. apply Hlast. reflexivity.
Defined.

(** ** Invariants of traces *)

Lemma inv_trace {A} (P : event -> Prop) (Q : A -> Prop) (m : M A) :
  inv P Q m -> Forall P (fst m).
Proof. intros [H _]. exact H. Qed.

Lemma inv_ret {A} (P : event -> Prop) (Q : A -> Prop) (a : A) :
  Q a -> inv P Q (ret a).
Proof.
  intros H. split; simpl; [constructor |]. intros a' Ha. now inversion Ha; subst.
Qed.

Lemma inv_lift {A} (P : event -> Prop) (Q : A -> Prop) (o : outcome A) :
  (forall a, o = Ret a -> Q a) -> inv P Q (lift o).
Proof. intros H. split; simpl; [constructor | assumption]. Qed.

Lemma inv_emit (P : event -> Prop) (e : event) :
  P e -> inv P (fun _ => True) (emit e).
Proof. intros H. split; simpl; [repeat constructor; assumption | auto]. Qed.

Lemma inv_bind {A B} (P : event -> Prop) (Q : A -> Prop) (R : B -> Prop)
  (m : M A) (k : A -> M B) :
  inv P Q m -> (forall a, Q a -> inv P R (k a)) -> inv P R (bind m k).
Proof.
  intros [Hm HQ] Hk. split.
  - rewrite bind_trace. apply Forall_app. split; [assumption |].
    destruct (snd m) as [a | e |] eqn:E; try constructor.
    apply (Hk a (HQ a eq_refl)).
  - intros b Hb. apply bind_returns_inv in Hb.
    destruct Hb as (a & Ha & Hb & _). apply (Hk a (HQ a Ha)). assumption.
Qed.

Lemma inv_for {A} (P : event -> Prop) (l : list A) (body : A -> M unit) :
  (forall x, In x l -> inv P (fun _ => True) (body x)) ->
  inv P (fun _ => True) (for_ l body).
Proof.
  induction l as [| x l IH]; intros H; simpl.
  - now apply inv_ret.
  - apply inv_bind with (Q := fun _ => True).
    + apply H. now left.
    + intros _ _. apply IH. intros y Hy. apply H. now right.
Qed.

Lemma inv_fold {A S} (P : event -> Prop) (I : S -> Prop) (l : list A)
  (body : S -> A -> M S) :
  (forall s x, In x l -> I s -> inv P I (body s x)) ->
  forall s, I s -> inv P I (fold_ l body s).
Proof.
  induction l as [| x l IH]; intros H s Hs; simpl.
  - now apply inv_ret.
  - apply inv_bind with (Q := I).
    + apply H; [now left | assumption].
    + intros s' Hs'. apply IH; [| assumption].
      intros s0 y Hy. apply H. now right.
Qed.

Lemma getitem_in {A} (l : list A) (i : nat) (x : A) :
  getitem l i = Ret x -> In x l.
Proof.
  unfold getitem. destruct (nth_error l i) eqn:E; [| discriminate].
  intros H. inversion H; subst. eapply nth_error_In; eassumption.
Qed.

Lemma inv_getitem (P : event -> Prop) {A} (G : A -> Prop) (l : list A) (i : nat) :
  Forall G l -> inv P G (lift (getitem l i)).
Proof.
  intros H. apply inv_lift. intros x Hx. apply getitem_in in Hx.
  rewrite Forall_forall in H. auto.
Qed.

Section RoutineInvariants.

Variable F : framework.
Variable P : event -> Prop.
Variable G : tensor -> Prop.

Hypothesis forward_ok : forall xs, Forall G xs -> P (Forward xs).
Hypothesis call1_ok : forall m x, G x -> G (call1 F m x).
Hypothesis pool_ok : forall x, G x -> G (avg_pool2d F x).

Lemma inv_forward1 (m : module F) (x : tensor) :
  G x -> inv P G (forward1 F m x).
Proof.
  intros Hx. unfold forward1. apply inv_bind with (Q := fun _ => True).
  - apply inv_emit. apply forward_ok. repeat constructor. assumption.
  - intros _ _. apply inv_ret. now apply call1_ok.
Qed.

Lemma inv_forward2 (m : module F) (x y : tensor) :
  G x -> G y -> inv P (fun _ => True) (forward2 F m x y).
Proof.
  intros Hx Hy. unfold forward2. apply inv_bind with (Q := fun _ => True).
  - apply inv_emit. apply forward_ok. repeat constructor; assumption.
  - intros _ _. now apply inv_ret.
Qed.

Lemma do_pooling_ok (fuel : nat) :
  forall dep d x, G d -> do_pooling F fuel dep d = Ret x -> G x.
Proof.
  induction fuel as [| fuel IH]; intros dep d x Hd; simpl; [discriminate |].
  destruct (dep - 1 =? 1).
  - intros H. inversion H. now apply pool_ok.
  - destruct (do_pooling F fuel (dep - 1) d) as [y | e |] eqn:E;
      simpl; try discriminate.
    intros H. inversion H. apply pool_ok. eapply IH; eassumption.
Qed.

Lemma inv_plot_block (args : Namespace) (block : tensor) (img_size : Z)
  (name : string) :
  P (Savefig (block_path args name img_size)) ->
  inv P (fun _ => True) (plot_block args block img_size name).
Proof.
  intros H. unfold plot_block. apply inv_bind with (Q := fun _ => True).
  - apply inv_for. intros i _.
    apply inv_bind with (Q := fun _ => True); [now apply inv_lift |].
    intros b0 _.
    apply inv_bind with (Q := fun _ => True); [now apply inv_lift |].
    intros _ _. now apply inv_ret.
  - intros _ _. now apply inv_emit.
Qed.

(** After the entry marker, [block_filters] loads the image, runs forward
    passes and saves block plots, and nothing else. *)
Lemma block_filters_inv (fuel : nat) (model : module F) (img_path : string)
  (args : Namespace) :
  P (LoadImage img_path) ->
  (forall sz, In sz down_sizes -> P (Savefig (block_path args "down" sz))) ->
  (forall sz, In sz up_sizes -> P (Savefig (block_path args "up" sz))) ->
  G (unsqueeze0 (fst (load_image F img_path args))) ->
  exists rest,
    fst (block_filters F fuel model img_path args) = Call BlockFilters :: rest
    /\ Forall P rest.
Proof.
  intros Hload Hdown Hup Himg. unfold block_filters. rewrite bind_emit.
  eexists. split; [reflexivity |]. cbv zeta.
  apply inv_trace with (Q := fun _ => True).
  apply inv_bind with (Q := fun _ => True); [now apply inv_emit |].
  intros _ _.
  apply inv_bind with (Q := fun _ => True); [now apply inv_lift |].
  intros lists _.
  apply inv_bind with (Q := fun _ => True); [now apply inv_lift |].
  intros d0 _.
  apply inv_bind with (Q := G); [now apply inv_forward1 |].
  intros l0 Hl0.
  apply inv_bind with (Q := Forall G).
  { apply inv_fold; [| now repeat constructor].
    intros dep_list i _ Hdep.
    apply inv_bind with (Q := fun _ => True); [now apply inv_lift |].
    intros blk _.
    apply inv_bind with (Q := G); [now apply inv_getitem |].
    intros x Hx.
    apply inv_bind with (Q := G); [now apply inv_forward1 |].
    intros layer Hlayer. apply inv_ret.
    apply Forall_app. split; [assumption | now repeat constructor]. }
  intros dep_list Hdep.
  apply inv_bind with (Q := fun _ => True).
  { apply inv_for. intros [j sz] Hin. apply in_combine_r in Hin.
    apply inv_bind with (Q := fun _ => True); [now apply inv_lift |].
    intros b _. apply inv_plot_block. now apply Hdown. }
  intros _ _.
  apply inv_bind with (Q := fun _ => True).
  { apply inv_fold; [| exact I].
    intros up_block i _ _.
    apply inv_bind with (Q := G); [now apply inv_getitem |].
    intros d Hd.
    apply inv_bind with (Q := G).
    { apply inv_lift. intros x Hx. eapply do_pooling_ok; eassumption. }
    intros pools Hpools.
    apply inv_bind with (Q := fun _ => True); [now apply inv_lift |].
    intros blk _.
    apply inv_bind with (Q := G); [now apply inv_getitem |].
    intros br Hbr.
    apply inv_bind with (Q := fun _ => True).
    { apply inv_forward2; [assumption | now apply pool_ok]. }
    intros up_layer _. now apply inv_ret. }
  intros up_block _.
  apply inv_for. intros [j sz] Hin. apply in_combine_r in Hin.
  apply inv_bind with (Q := fun _ => True); [now apply inv_lift |].
  intros b _. apply inv_plot_block. now apply Hup.
Qed.

End RoutineInvariants.

(** ** Traces of [sensitivity_analysis], [plot_sensitivity] and [main] *)


Lemma forwarded_Forall (tr : list event) :
  Forall batch_of_one tr ->
  Forall (fun t => batch t = Some 1%nat) (forwarded tr).
Proof.
  induction 1 as [| e tr He Htr IH]; simpl; [constructor |].
  destruct e; simpl; auto. apply Forall_app. split; assumption.
Qed.


Section MainFacts.

Variable F : framework.

Lemma relevance_map_trace (model : module F) (img : tensor) (tc : option Z) :
  fst (relevance_map F model img tc) = [Forward [unsqueeze0 img]].
Proof.
  unfold relevance_map, forward1. rewrite bind_emit. cbn [fst snd ret].
  rewrite bind_ret. cbv zeta.
  destruct (one_hot_output_of _ tc) as [w | e |]; reflexivity.
Qed.

Lemma sensitivity_analysis_trace (model : module F) (img : tensor)
  (tc : option Z) (pp : pyval) :
  fst (sensitivity_analysis F model img tc pp) = [Forward [unsqueeze0 img]].
Proof.
  unfold sensitivity_analysis. rewrite bind_trace, relevance_map_trace.
  destruct (snd (relevance_map F model img tc)); reflexivity.
Qed.

Lemma plot_sensitivity_trace (img_path : string) (model : module F)
  (args : Namespace) :
  fst (plot_sensitivity F img_path model args)
  = [Call PlotSensitivity; LoadImage img_path;
     Forward [unsqueeze0 (fst (load_image F img_path args))]]
    ++ match snd (plot_sensitivity F img_path model args) with
       | Ret _ => [Savefig (sensitivity_path args)]
       | _ => []
       end.
Proof.
  unfold plot_sensitivity. rewrite !bind_emit. cbn [fst snd]. cbv zeta.
  pose proof (sensitivity_analysis_trace model
                (fst (load_image F img_path args)) None (PyStr "abs")) as Ht.
  destruct (sensitivity_analysis F model (fst (load_image F img_path args))
              None (PyStr "abs")) as [tr [m | e |]];
    simpl in Ht; subst tr; try reflexivity.
  rewrite bind_ret. destruct (np_squeeze0 m) as [m' | e |]; reflexivity.
Qed.

(** On accepted arguments [main] is the setup, then the dispatched
    routine, then the closing message if the routine returns. *)
Lemma main_trace (fuel : nat) (argv : option (list string)) (args : Namespace) :
  parse_args F (argv_of F argv) = Ret args ->
  fst (main F fuel argv)
  = setup_events F args ++ fst (dispatched F fuel args)
    ++ match snd (dispatched F fuel args) with
       | Ret _ => [Print "Interpretation complete"]
       | _ => []
       end.
Proof.
  intros Hparse. unfold main. fold (argv_of F argv). rewrite Hparse.
  rewrite bind_lift_ret. unfold setup_events, dispatched, run_routine, selected.
  destruct (parse_args_choice F _ _ Hparse) as [Hs | Hb]; rewrite Hs || rewrite Hb;
    cbn [String.eqb Ascii.eqb Bool.eqb andb];
    destruct (path_exists F (interpret_path args)); cbn [negb];
    unfold ret; rewrite ?bind_emit, ?bind_ret; cbn [fst snd app];
    rewrite ?bind_emit, ?bind_ret; cbn [fst snd app].
  - rewrite bind_trace. destruct (snd (plot_sensitivity F _ _ args)); reflexivity.
  - rewrite bind_trace. destruct (snd (plot_sensitivity F _ _ args)); reflexivity.
  - rewrite bind_trace. destruct (snd (block_filters F fuel _ _ args)); reflexivity.
  - rewrite bind_trace. destruct (snd (block_filters F fuel _ _ args)); reflexivity.
Qed.

End MainFacts.

(** ** The files written *)

Lemma tindex_cases (t : tensor) (i : nat) :
  (exists x, tindex t i = Ret x) \/ tindex t i = Raise IndexError.
Proof.
  unfold tindex. destruct (shape t) as [| n rest]; [now right |].
  destruct (i <? n)%nat; [left; eauto | now right].
Qed.

Lemma for_quiet {A} (l : list A) (body : A -> M unit) :
  (forall x, In x l ->
     body x = ([], Ret tt) \/ body x = ([], Raise IndexError)) ->
  for_ l body = ([], Ret tt) \/ for_ l body = ([], Raise IndexError).
Proof.
  induction l as [| x l IH]; intros H; simpl.
  - now left.
  - destruct (H x (or_introl eq_refl)) as [Hx | Hx]; rewrite Hx.
    + unfold ret. rewrite bind_ret. simpl.
      destruct IH as [Hl | Hl]; [intros y Hy; apply H; now right | |];
        rewrite Hl; auto.
    + now right.
Qed.

Lemma for_quiet_returns {A} (l : list A) (body : A -> M unit) :
  (forall x, In x l -> body x = ([], Ret tt)) -> for_ l body = ([], Ret tt).
Proof.
  induction l as [| x l IH]; intros H; simpl.
  - reflexivity.
  - rewrite (H x (or_introl eq_refl)). rewrite bind_ret. simpl.
    rewrite IH; [reflexivity |]. intros y Hy. apply H. now right.
Qed.

Lemma read_channel_cases (block : tensor) (i : nat) :
  let body := (b0 <- lift (tindex block 0) ;;
               _ <- lift (tindex b0 i) ;; ret tt) in
  body = ([], Ret tt) \/ body = ([], Raise IndexError).
Proof.
  cbv zeta. destruct (tindex_cases block 0) as [[b0 H0] | H0]; rewrite H0.
  - rewrite bind_lift_ret.
    destruct (tindex_cases b0 i) as [[c Hc] | Hc]; rewrite Hc.
    + rewrite bind_lift_ret. now left.
    + now right.
  - now right.
Qed.

Lemma read_channel_ok (block : tensor) (n i : nat) :
  has_channels block n -> (i < n)%nat ->
  (b0 <- lift (tindex block 0) ;; _ <- lift (tindex b0 i) ;; ret tt)
  = ([], Ret tt).
Proof.
  intros (b & c & rest & Hs & Hn) Hi. unfold tindex at 1. rewrite Hs.
  cbn [Nat.ltb Nat.leb]. rewrite bind_lift_ret.
  unfold tindex. cbn [shape].
  replace (i <? c)%nat with true by (symmetry; apply Nat.ltb_lt; lia).
  rewrite bind_lift_ret. reflexivity.
Qed.

(** [plot_block] writes its one file, or raises before writing. *)
Lemma plot_block_cases (args : Namespace) (block : tensor) (img_size : Z)
  (name : string) :
  plot_block args block img_size name
  = ([Savefig (block_path args name img_size)], Ret tt)
  \/ plot_block args block img_size name = ([], Raise IndexError).
Proof.
  unfold plot_block.
  destruct (for_quiet (range img_size)
              (fun i => b0 <- lift (tindex block 0) ;;
                        _ <- lift (tindex b0 i) ;; ret tt)) as [H | H].
  - intros i _. apply read_channel_cases.
  - rewrite H. left. reflexivity.
  - rewrite H. right. reflexivity.
Qed.

Lemma plot_block_ok (args : Namespace) (block : tensor) (img_size : Z)
  (name : string) :
  has_channels block (Z.to_nat img_size) ->
  plot_block args block img_size name
  = ([Savefig (block_path args name img_size)], Ret tt).
Proof.
  intros H. unfold plot_block. rewrite for_quiet_returns; [reflexivity |].
  intros i Hi. apply in_seq in Hi. apply read_channel_ok with (n := Z.to_nat img_size).
  - assumption.
  - lia.
Qed.

Section RoutineTraces.

Variable F : framework.




End RoutineTraces.








(** ** Batch of one *)

Lemma run_routine_batch (F : framework) (fuel : nat) (args : Namespace)
  (r : routine) :
  keeps_batch F -> Forall batch_of_one (fst (run_routine F fuel args r)).
Proof.
  intros [Hcall Hpool]. destruct r; unfold run_routine; cbv zeta.
  - rewrite plot_sensitivity_trace. apply Forall_app. split.
    + repeat constructor.
    + destruct (snd _); repeat constructor.
  - destruct (block_filters_inv F batch_of_one
                (fun t => batch t = Some 1%nat) (fun xs H => H) Hcall Hpool
                fuel (load_model F args)
                (path_join F (main_dir args) ["data"; "test-volume.tif"]%string)
                args) as (rest & Hrest & Hall).
    + exact I.
    + intros; exact I.
    + intros; exact I.
    + reflexivity.
    + rewrite Hrest. constructor; [exact I | assumption].
Qed.

(** C9.  In a framework whose blocks and pooling keep a batch of one a
    batch of one, every tensor handed to a forward pass has leading
    dimension 1, in [block_filters], in [sensitivity_analysis] and in any
    run of [main]: [block_filters] starts from [img_tensor.unsqueeze(0)],
    [sensitivity_analysis] runs its one forward pass on [image_tensor[None]],
    and no step changes the leading dimension. *)
Theorem forward_batch_of_one (F : framework) :
  keeps_batch F ->
  (forall fuel model img_path args,
     Forall (fun t => batch t = Some 1%nat)
       (forwarded (fst (block_filters F fuel model img_path args))))
  /\ (forall model image_tensor target_class postprocess,
        forwarded (fst (sensitivity_analysis F model image_tensor
                          target_class postprocess))
        = [unsqueeze0 image_tensor]
        /\ batch (unsqueeze0 image_tensor) = Some 1%nat)
  /\ (forall fuel argv,
        Forall (fun t => batch t = Some 1%nat)
          (forwarded (fst (main F fuel argv)))).
Proof.
  intros Hkeep. split; [| split].
  - intros fuel model img_path args. apply forwarded_Forall.
    destruct Hkeep as [Hcall Hpool].
    destruct (block_filters_inv F batch_of_one
                (fun t => batch t = Some 1%nat) (fun xs H => H) Hcall Hpool
                fuel model img_path args) as (rest & Hrest & Hall);
      try (intros; exact I); try reflexivity.
    rewrite Hrest. constructor; [exact I | assumption].
  - intros model image_tensor target_class postprocess.
    rewrite sensitivity_analysis_trace. split; reflexivity.
  - intros fuel argv. apply forwarded_Forall.
    destruct (parse_args F (argv_of F argv)) as [args | e |] eqn:Hparse.
    + rewrite (main_trace F fuel argv args Hparse).
      apply Forall_app. split.
      * unfold setup_events.
        destruct (path_exists F (interpret_path args)); repeat constructor.
      * apply Forall_app. split.
        -- now apply run_routine_batch.
        -- destruct (snd _); repeat constructor.
    + unfold main. fold (argv_of F argv). rewrite Hparse. constructor.
    + unfold main. fold (argv_of F argv). rewrite Hparse. constructor.
Qed.

Lemma toy_keeps_batch : keeps_batch toy.
Proof.
  split.
  - intros m x _. destruct m as [| [| [| [| [| [| [| [| m]]]]]]]]; reflexivity.
  - intros x H. change (avg_pool2d toy x) with (toy_pool x).
    unfold toy_pool.
    destruct (rev (shape x)) as [| w [| h [| c r]]] eqn:E; try assumption.
    assert (Hs : shape x = (rev r ++ [c; h; w])%list).
    { rewrite <- (rev_involutive (shape x)), E. simpl.
      now rewrite <- !app_assoc. }
    unfold batch in *. rewrite Hs in H. cbn [shape].
    destruct (rev r); simpl in *; assumption.
Qed.

Lemma forward_batch_of_one_witness :
  Forall (fun t => batch t = Some 1%nat) (forwarded (fst (main toy 5 (Some [])))).
Proof.
  apply (proj2 (proj2 (forward_batch_of_one toy toy_keeps_batch))).
Defined.

(** ** The plots of [block_filters] *)

Lemma writes_ret {A} (Q : A -> Prop) (a : A) : Q a -> writes (ret a) [] Q.
Proof. intros H. exists [], a. auto. Qed.

Lemma writes_lift {A} (Q : A -> Prop) (o : outcome A) (a : A) :
  o = Ret a -> Q a -> writes (lift o) [] Q.
Proof. intros -> H. exists [], a. auto. Qed.

Lemma writes_emit (e : event) : writes (emit e) (saved [e]) (fun _ => True).
Proof. exists [e], tt. auto. Qed.

Lemma writes_bind {A B} (Q : A -> Prop) (R : B -> Prop) (m : M A)
  (k : A -> M B) (p1 p2 : list string) :
  writes m p1 Q -> (forall a, Q a -> writes (k a) p2 R) ->
  writes (bind m k) (p1 ++ p2) R.
Proof.
  intros (tr & a & -> & Hp1 & Ha) Hk.
  destruct (Hk a Ha) as (tr' & b & Hkb & Hp2 & Hb).
  exists (tr ++ tr'), b. rewrite bind_ret, Hkb. cbn [fst snd].
  rewrite saved_app, Hp1, Hp2. auto.
Qed.

Lemma writes_eq {A} (Q : A -> Prop) (m : M A) (p p' : list string) :
  writes m p Q -> p = p' -> writes m p' Q.
Proof. intros H <-. exact H. Qed.

Lemma writes_for {A} (f : A -> list string) (l : list A) (body : A -> M unit) :
  (forall x, In x l -> writes (body x) (f x) (fun _ => True)) ->
  writes (for_ l body) (flat_map f l) (fun _ => True).
Proof.
  induction l as [| x l IH]; intros H; simpl.
  - now apply writes_ret.
  - apply writes_bind with (Q := fun _ => True).
    + apply H. now left.
    + intros _ _. apply IH. intros y Hy. apply H. now right.
Qed.

Lemma writes_fold {A St} (I : nat -> St -> Prop) (body : St -> A -> M St)
  (l : list A) :
  forall k s,
    I k s ->
    (forall i x s, nth_error l i = Some x -> I (k + i)%nat s ->
       writes (body s x) [] (I (S (k + i)))) ->
    writes (fold_ l body s) [] (I (k + List.length l)%nat).
Proof.
  induction l as [| x l IH]; intros k s Hs H; simpl.
  - rewrite Nat.add_0_r. now apply writes_ret.
  - apply writes_eq with (p := [] ++ []); [| reflexivity].
    apply writes_bind with (Q := I (S k)).
    + replace (S k) with (S (k + 0)) by lia. apply H; [reflexivity |].
      now rewrite Nat.add_0_r.
    + intros s' Hs'.
      replace (k + S (List.length l))%nat with (S k + List.length l)%nat by lia.
      apply IH; [assumption |].
      intros i y s0 Hy Hs0.
      replace (S k + i)%nat with (k + S i)%nat in * by lia.
      apply H; assumption.
Qed.

Lemma in_combine_seq {B} (n : nat) :
  forall a (l : list B) j y,
    In (j, y) (combine (seq a n) l) ->
    (a <= j < a + n)%nat /\ nth_error l (j - a) = Some y.
Proof.
  induction n as [| n IH]; intros a l j y H; simpl in H; [contradiction |].
  destruct l as [| b l]; [contradiction |].
  destruct H as [H | H].
  - inversion H; subst. replace (j - j)%nat with O by lia. split; [lia | reflexivity].
  - apply IH in H. destruct H as [Hj Hy]. split; [lia |].
    replace (j - a)%nat with (S (j - S a)) by lia. exact Hy.
Qed.

Lemma flat_map_combine_seq {B} (g : B -> string) (n : nat) :
  forall a (l : list B),
    flat_map (fun jm : nat * B => [g (snd jm)]) (combine (seq a n) l)
    = map g (firstn n l).
Proof.
  induction n as [| n IH]; intros a l; simpl; [reflexivity |].
  destruct l as [| b l]; [reflexivity |]. simpl. now rewrite IH.
Qed.


Lemma getitem_some {B} (l : list B) (i : nat) (x : B) :
  nth_error l i = Some x -> getitem l i = Ret x.
Proof. unfold getitem. now intros ->. Qed.

Lemma nth_error_below {B} (l : list B) (i : nat) :
  (i < List.length l)%nat -> exists x, nth_error l i = Some x.
Proof.
  intros H. destruct (nth_error l i) eqn:E; [eauto |].
  apply nth_error_None in E. lia.
Qed.

Section BlockFiltersPlots.

Variable F : framework.

Lemma writes_forward1 (m : module F) (x : tensor) :
  writes (forward1 F m x) [] (fun y => y = call1 F m x).
Proof. exists [Forward [x]], (call1 F m x). auto. Qed.

Lemma writes_forward2 (m : module F) (x bridge : tensor) :
  writes (forward2 F m x bridge) [] (fun y => y = call2 F m x bridge).
Proof. exists [Forward [x; bridge]], (call2 F m x bridge). auto. Qed.

(** The loop over a zip with a size list plots each block it reaches. *)
Lemma writes_plot_loop (args : Namespace) (name : string) (sizes : list Z)
  (blocks : list tensor) :
  (forall j t sz, nth_error blocks j = Some t -> nth_error sizes j = Some sz ->
     has_channels t (Z.to_nat sz)) ->
  writes
    (for_ (combine (range (len blocks)) sizes) (fun jm =>
       b <- lift (getitem blocks (fst jm)) ;;
       plot_block args b (snd jm) name))
    (map (block_path args name) (firstn (List.length blocks) sizes))
    (fun _ => True).
Proof.
  intros Hch. unfold range, len. rewrite Nat2Z.id.
  rewrite <- (flat_map_combine_seq (block_path args name) _ 0%nat).
  apply writes_for. intros [j sz] Hin. cbn [fst snd].
  apply in_combine_seq in Hin. destruct Hin as [Hj Hsz].
  rewrite Nat.sub_0_r in Hsz.
  destruct (nth_error_below blocks j ltac:(lia)) as [t Ht].
  apply writes_eq with (p := [] ++ [block_path args name sz]); [| reflexivity].
  apply writes_bind with (Q := fun b => b = t).
  - apply writes_lift with (a := t); [now apply getitem_some | reflexivity].
  - intros b ->. rewrite plot_block_ok by (eapply Hch; eassumption).
    exists [Savefig (block_path args name sz)], tt. auto.
Qed.

Lemma block_filters_writes (fuel : nat) (model : module F) (img_path : string)
  (args : Namespace) (down up : list (module F)) :
  get_block_list F (all_children F model) args = Ret (down, up) ->
  List.length down = Z.to_nat (depth args) ->
  List.length up = Z.to_nat (depth args - 1) ->
  (forall y, (y < Z.to_nat (depth args))%nat ->
     nth_error down y = first_named (all_children F model) (down_pattern y)) ->
  (forall y, (y < Z.to_nat (depth args - 1))%nat ->
     nth_error up y = first_named (all_children F model) (up_pattern y)) ->
  1 <= depth args ->
  enough_channels F (all_children F model) (depth args) ->
  (Z.to_nat (depth args - 1) <= fuel)%nat ->
  writes (block_filters F fuel model img_path args)
    (map (block_path args "down") (firstn (Z.to_nat (depth args)) down_sizes)
     ++ map (block_path args "up") (firstn (Z.to_nat (depth args - 1)) up_sizes))
    (fun _ => True).
Proof.
  intros Hlists Hld Hlu Hnd Hnu Hdepth [Hcd Hcu] Hfuel.
  unfold block_filters. cbv zeta.
  eapply writes_eq.
  { apply writes_bind with (Q := fun _ => True); [apply writes_emit |].
    intros _ _.
    apply writes_bind with (Q := fun _ => True); [apply writes_emit |].
    intros _ _.
    apply writes_bind with (Q := fun lists => lists = (down, up)).
    { apply writes_lift with (a := (down, up)); [assumption | reflexivity]. }
    intros lists ->. cbn [fst snd].
    destruct (nth_error_below down 0%nat ltac:(lia)) as [d0 Hd0].
    apply writes_bind with (Q := fun d => d = d0).
    { apply writes_lift with (a := d0); [now apply getitem_some | reflexivity]. }
    intros d ->.
    apply writes_bind
      with (Q := fun y => y = call1 F d0
                              (unsqueeze0 (fst (load_image F img_path args)))).
    { apply writes_forward1. }
    intros l0 ->.
    (* the outputs of the down blocks *)
    apply writes_bind
      with (Q := fun dep_list : list tensor =>
                   List.length dep_list = Z.to_nat (depth args)
                   /\ forall j t, nth_error dep_list j = Some t ->
                        exists m x, nth_error down j = Some m /\ t = call1 F m x).
    { unfold range2, len. rewrite Hld.
      replace (Z.to_nat (Z.of_nat (Z.to_nat (depth args)) - 1))
        with (Z.to_nat (depth args) - 1)%nat by lia.
      change (Z.to_nat 1) with 1%nat.
      pose proof (writes_fold
        (fun i (dep_list : list tensor) =>
           List.length dep_list = i
           /\ forall j t, nth_error dep_list j = Some t ->
                exists m x, nth_error down j = Some m /\ t = call1 F m x)
        (fun dep_list i =>
           blk <- lift (getitem down i) ;;
           x <- lift (getitem dep_list (i - 1)) ;;
           layer <- forward1 F blk x ;;
           ret (dep_list ++ [layer]))
        (seq 1 (Z.to_nat (depth args) - 1)) 1%nat
        [call1 F d0 (unsqueeze0 (fst (load_image F img_path args)))]) as Hfold.
      rewrite length_seq in Hfold.
      replace (1 + (Z.to_nat (depth args) - 1))%nat
        with (Z.to_nat (depth args)) in Hfold by lia.
      apply Hfold; clear Hfold.
      - split; [reflexivity |]. intros [| j] t Ht; simpl in Ht.
        + inversion Ht; subst. eauto.
        + destruct j; discriminate.
      - intros i x dep_list Hx [Hlen Hdep].
        rewrite nth_error_seq in Hx.
        destruct (i <? Z.to_nat (depth args) - 1)%nat eqn:Hi; [| discriminate].
        apply Nat.ltb_lt in Hi. inversion Hx; subst x.
        destruct (nth_error_below down (1 + i)%nat ltac:(lia)) as [blk Hblk].
        destruct (nth_error_below dep_list (1 + i - 1)%nat ltac:(lia)) as [t Ht].
        apply writes_eq with (p := [] ++ [] ++ [] ++ []); [| reflexivity].
        apply writes_bind with (Q := fun b => b = blk).
        { apply writes_lift with (a := blk);
            [now apply getitem_some | reflexivity]. }
        intros b ->.
        apply writes_bind with (Q := fun y => y = t).
        { apply writes_lift with (a := t);
            [now apply getitem_some | reflexivity]. }
        intros y ->.
        apply writes_bind with (Q := fun y => y = call1 F blk t).
        { apply writes_forward1. }
        intros layer ->. apply writes_ret. split.
        + rewrite length_app. simpl. lia.
        + intros j u Hu. rewrite nth_error_app in Hu.
          destruct (j <? List.length dep_list)%nat eqn:Hj.
          * eapply Hdep; eassumption.
          * apply Nat.ltb_ge in Hj.
            destruct (j - List.length dep_list)%nat as [| j'] eqn:Ej;
              simpl in Hu; [| destruct j'; discriminate].
            inversion Hu; subst u. exists blk, t.
            replace j with (1 + i)%nat by lia. auto. }
    intros dep_list [Hlen Hdep].
    (* the plots of the down blocks *)
    apply writes_bind with (Q := fun _ => True).
    { eapply writes_eq.
      - apply writes_plot_loop. intros j t sz Ht Hsz.
        destruct (Hdep j t Ht) as (m & x & Hm & ->).
        apply (Hcd j sz m x Hsz). rewrite <- Hnd; [assumption |].
        rewrite <- Hlen. apply nth_error_Some. congruence.
      - rewrite Hlen. reflexivity. }
    intros _ _.
    (* the outputs of the up blocks *)
    apply writes_bind
      with (Q := fun up_block : list tensor =>
                   List.length up_block = Z.to_nat (depth args - 1)
                   /\ forall j t, nth_error up_block j = Some t ->
                        exists m x y,
                          nth_error (rev up) j = Some m /\ t = call2 F m x y).
    { unfold range, len. rewrite Hlu, Nat2Z.id.
      pose proof (writes_fold
        (fun i (up_block : list tensor) =>
           List.length up_block = i
           /\ forall j t, nth_error up_block j = Some t ->
                exists m x y,
                  nth_error (rev up) j = Some m /\ t = call2 F m x y)
        (fun up_block i =>
           d <- lift (getitem dep_list (i + 1)) ;;
           pools <- lift (do_pooling F fuel (depth args) d) ;;
           blk <- lift (getitem (rev up) i) ;;
           br <- lift (getitem dep_list i) ;;
           up_layer <- forward2 F blk pools (avg_pool2d F br) ;;
           ret (up_block ++ [up_layer]))
        (seq 0 (Z.to_nat (depth args - 1))) 0%nat []) as Hfold.
      rewrite length_seq in Hfold. cbn [Nat.add] in Hfold.
      apply Hfold; clear Hfold.
      - split; [reflexivity |]. intros [| j] t Ht; discriminate.
      - intros i x up_block Hx [Hlenu Hupb].
        rewrite nth_error_seq in Hx.
        destruct (i <? Z.to_nat (depth args - 1))%nat eqn:Hi; [| discriminate].
        apply Nat.ltb_lt in Hi. inversion Hx; subst x. cbn [Nat.add].
        destruct (nth_error_below dep_list (i + 1)%nat ltac:(lia)) as [d Hd].
        destruct (nth_error_below (rev up) i
                    ltac:(rewrite length_rev; lia)) as [blk Hblk].
        destruct (nth_error_below dep_list i ltac:(lia)) as [br Hbr].
        apply writes_eq with (p := [] ++ [] ++ [] ++ [] ++ [] ++ []);
          [| reflexivity].
        apply writes_bind with (Q := fun y => y = d).
        { apply writes_lift with (a := d);
            [now apply getitem_some | reflexivity]. }
        intros y ->.
        apply writes_bind with (Q := fun _ => True).
        { eapply writes_lift; [| exact I].
          apply do_pooling_enough_fuel; lia. }
        intros pools _.
        apply writes_bind with (Q := fun y => y = blk).
        { apply writes_lift with (a := blk);
            [now apply getitem_some | reflexivity]. }
        intros y ->.
        apply writes_bind with (Q := fun y => y = br).
        { apply writes_lift with (a := br);
            [now apply getitem_some | reflexivity]. }
        intros y ->.
        apply writes_bind
          with (Q := fun y => y = call2 F blk pools (avg_pool2d F br)).
        { apply writes_forward2. }
        intros up_layer ->. apply writes_ret. split.
        + rewrite length_app. simpl. lia.
        + intros j u Hu. rewrite nth_error_app in Hu.
          destruct (j <? List.length up_block)%nat eqn:Hj.
          * eapply Hupb; eassumption.
          * apply Nat.ltb_ge in Hj.
            destruct (j - List.length up_block)%nat as [| j'] eqn:Ej;
              simpl in Hu; [| destruct j'; discriminate].
            inversion Hu; subst u. exists blk, pools, (avg_pool2d F br).
            replace j with i by lia. auto. }
    intros up_block [Hlenu Hupb].
    (* the plots of the up blocks *)
    replace (len up) with (len up_block) by (unfold len; congruence).
    eapply writes_eq.
    - apply writes_plot_loop. intros j t sz Ht Hsz.
      destruct (Hupb j t Ht) as (m & x & y & Hm & ->).
      apply (Hcu j sz m x y Hsz).
      rewrite nth_error_rev in Hm.
      destruct (j <? List.length up)%nat eqn:Hj; [| discriminate].
      apply Nat.ltb_lt in Hj. rewrite Hnu in Hm by lia.
      rewrite <- Hm. f_equal. f_equal. lia.
    - rewrite Hlenu. reflexivity. }
  reflexivity.
Qed.

(** Without a first down block the routine stops at [down_list[0]]. *)
Lemma block_filters_no_block (fuel : nat) (model : module F)
  (img_path : string) (args : Namespace) :
  depth args <= 0 ->
  block_filters F fuel model img_path args
  = ([Call BlockFilters; LoadImage img_path], Raise IndexError).
Proof.
  intros Hdepth. unfold block_filters. rewrite !bind_emit. cbv zeta.
  rewrite get_block_list_select. unfold range.
  replace (Z.to_nat (depth args)) with 0%nat by lia.
  replace (Z.to_nat (depth args - 1)) with 0%nat by lia.
  reflexivity.
Qed.

End BlockFiltersPlots.


Lemma toy_blocks_present : blocks_present (all_children toy 0%nat) 3.
Proof.
  split; intros y Hy; simpl in Hy.
  - destruct y as [| [| [| y]]]; [| | | lia]; eexists; simpl; eauto 10.
  - destruct y as [| [| y]]; [| | lia]; eexists; simpl; eauto 10.
Qed.

Lemma toy_enough_channels : enough_channels toy (all_children toy 0%nat) 3.
Proof.
  split.
  - intros j sz m x Hsz Hm.
    assert (Hle : (Z.to_nat sz <= 256)%nat).
    { destruct j as [| [| [| j]]]; simpl in Hsz; inversion Hsz; subst;
        try (simpl; lia). destruct j; discriminate. }
    assert (Hshape : shape (call1 toy m x) = [1; 256; 1; 1]%nat).
    { destruct j as [| [| [| j]]]; simpl in Hm; inversion Hm; subst;
        try reflexivity. destruct j; discriminate. }
    exists 0%nat, 256%nat, [1; 1]%nat. split; assumption.
  - intros j sz m x y Hsz _.
    exists 0%nat, 32%nat, [1; 1]%nat. split; [reflexivity |].
    destruct j as [| [| j]]; simpl in Hsz; inversion Hsz; subst;
      try (simpl; lia). destruct j; discriminate.
Qed.


(** * Further properties *)

(** ** [parse_args]: outcome, stored values, order of the options *)

Section ParseArgsMore.

Variable F : framework.

Lemma flag_eqb_eq (f g : flag) : flag_eqb f g = true <-> f = g.
Proof. destruct f, g; simpl; split; intros H; try reflexivity; discriminate. Qed.

(** What one store does to the attributes. *)
Lemma store_attribute (ns ns' : Namespace) (f : flag) (v : string) :
  store F ns (f, v) = Ret ns' ->
  converted F f v = Some (attribute f ns')
  /\ forall g, g <> f -> attribute g ns' = attribute g ns.
Proof.
  unfold store, converted, convert_int.
  destruct f; try (destruct (py_int F v) as [z |]; cbn [obind option_map]);
    try (destruct (in_choices v plot_interpret_choices));
    intros H; inversion H; subst; clear H;
    (split; [reflexivity |]); intros g Hg; destruct g; try reflexivity;
    congruence.
Qed.

Lemma store_all_attribute (occs : list (flag * string)) :
  forall ns0 ns,
    store_all F occs ns0 = Ret ns ->
    forall f,
      match last_value f occs with
      | Some v => converted F f v = Some (attribute f ns)
      | None => attribute f ns = attribute f ns0
      end.
Proof.
  induction occs as [| [g w] occs IH]; intros ns0 ns H f;
    cbn [store_all last_value fst snd] in *.
  - now inversion H.
  - destruct (store F ns0 (g, w)) as [ns1 | e |] eqn:Hs; cbn [obind] in H;
      try discriminate.
    specialize (IH ns1 ns H f).
    destruct (store_attribute ns0 ns1 g w Hs) as [Hconv Hother].
    destruct (last_value f occs) as [v |]; [assumption |].
    destruct (flag_eqb g f) eqn:E.
    + apply flag_eqb_eq in E. subst g. now rewrite IH.
    + rewrite IH. apply Hother. intros ->.
      assert (flag_eqb g g = true) by now apply flag_eqb_eq. congruence.
Qed.

Lemma store_commute (ns : Namespace) (o1 o2 : flag * string) :
  fst o1 <> fst o2 ->
  obind (store F ns o1) (fun n => store F n o2)
  = obind (store F ns o2) (fun n => store F n o1).
Proof.
  destruct o1 as [f v], o2 as [g w]. cbn [fst]. intros Hne.
  unfold store, convert_int.
  destruct f, g; try congruence;
    try (destruct (py_int F v)); try (destruct (py_int F w));
    try (destruct (in_choices v plot_interpret_choices));
    try (destruct (in_choices w plot_interpret_choices));
    reflexivity.
Qed.

Lemma store_all_swap (pre post : list (flag * string)) (o1 o2 : flag * string) :
  fst o1 <> fst o2 ->
  forall ns,
    store_all F (pre ++ o1 :: o2 :: post) ns
    = store_all F (pre ++ o2 :: o1 :: post) ns.
Proof.
  intros Hne. induction pre as [| o pre IH]; intros ns; simpl.
  - pose proof (store_commute ns o1 o2 Hne) as H.
    destruct (store F ns o1) as [n1 | e1 |], (store F ns o2) as [n2 | e2 |];
      simpl in *;
      try (destruct (store F n1 o2)); try (destruct (store F n2 o1));
      simpl in *; congruence.
  - destruct (store F ns o); simpl; auto.
Qed.

End ParseArgsMore.


(** X2.  In the namespace [parse_args] returns, the attribute of every
    option holds the value of its last occurrence on the command line,
    converted by its [type] ([int] for [--image_size], [--depth] and
    [--plot_size]), and the declared default when the option is absent. *)
Theorem parse_args_attributes (F : framework) (args : list string)
  (occs : list (flag * string)) (ns : Namespace) :
  scan_args F args = inr occs ->
  parse_args F args = Ret ns ->
  forall f,
    match last_value f occs with
    | Some v => converted F f v = Some (attribute f ns)
    | None => attribute f ns = attribute f defaults
    end.
Proof.
  intros Hscan Hparse. unfold parse_args in Hparse. rewrite Hscan in Hparse.
  now apply store_all_attribute.
Qed.

Lemma parse_args_attributes_witness :
  exists ns,
    parse_args toy ["--depth"; "2"; "--weights_dir"; "w"; "--depth"; "5"]%string
    = Ret ns
    /\ toy_int "5" = Some (depth ns)
    /\ image_size ns = 64.
Proof.
  eexists. split; [reflexivity |].
  pose proof (parse_args_attributes toy
                ["--depth"; "2"; "--weights_dir"; "w"; "--depth"; "5"]%string
                [(Depth, "2"); (WeightsDir, "w"); (Depth, "5")]%string
                _ eq_refl eq_refl) as H.
  split.
  - specialize (H Depth). simpl in H. inversion H. reflexivity.
  - specialize (H ImageSize). simpl in H. inversion H. reflexivity.
Defined.

(** X3.  The order in which different options are given does not matter:
    two argument vectors whose occurrences differ by exchanging two
    neighbouring occurrences of different options have the same outcome,
    the same namespace or the same exit. *)
Theorem parse_args_order (F : framework) (args args' : list string)
  (pre post : list (flag * string)) (o1 o2 : flag * string) :
  scan_args F args = inr (pre ++ o1 :: o2 :: post) ->
  scan_args F args' = inr (pre ++ o2 :: o1 :: post) ->
  fst o1 <> fst o2 ->
  parse_args F args = parse_args F args'.
Proof.
  intros H H' Hne. unfold parse_args. rewrite H, H'.
  now apply store_all_swap.
Qed.

Lemma parse_args_order_witness :
  parse_args toy ["--depth"; "2"; "--plot_size"; "x"]%string
  = parse_args toy ["--plot_size"; "x"; "--depth"; "2"]%string.
Proof.
  apply (parse_args_order toy _ _ [] [] (Depth, "2"%string) (PlotSize, "x"%string)).
  - reflexivity.
  - reflexivity.
  - discriminate.
Defined.

(** ** [get_block_list]: entries with other names *)

Lemma first_named_other {Mod : Type} (l1 l2 : list (string * Mod))
  (name key : string) (m : Mod) :
  key <> name ->
  first_named (l1 ++ (name, m) :: l2) key = first_named (l1 ++ l2) key.
Proof.
  intros Hne. induction l1 as [| [n0 m0] l1 IH]; simpl.
  - destruct (String.eqb_spec key name); [contradiction | reflexivity].
  - destruct (String.eqb key n0); [reflexivity | assumption].
Qed.

Lemma select_blocks_other {Mod : Type} (l1 l2 : list (string * Mod))
  (name : string) (m : Mod) (pat : nat -> string) (xs : list nat) :
  (forall x, In x xs -> pat x <> name) ->
  select_blocks (l1 ++ (name, m) :: l2) pat xs = select_blocks (l1 ++ l2) pat xs.
Proof.
  induction xs as [| x xs IH]; intros H; simpl; [reflexivity |].
  rewrite first_named_other by (apply H; now left).
  rewrite IH by (intros y Hy; apply H; now right). reflexivity.
Qed.

(** X4.  Only the entries named by a pattern count: an entry of the child
    list whose name is none of ['down_path.y'] for [y < depth] and
    ['up_path.y'] for [y < depth - 1], such as a layer inside a block, can
    be added or removed anywhere without changing what [get_block_list]
    returns or raises. *)
Theorem get_block_list_other_names (F : framework)
  (l1 l2 : list (string * module F)) (name : string) (m : module F)
  (args : Namespace) :
  (forall y, (y < Z.to_nat (depth args))%nat -> down_pattern y <> name) ->
  (forall y, (y < Z.to_nat (depth args - 1))%nat -> up_pattern y <> name) ->
  get_block_list F (l1 ++ (name, m) :: l2) args
  = get_block_list F (l1 ++ l2) args.
Proof.
  intros Hd Hu. rewrite !get_block_list_select. unfold range.
  rewrite (select_blocks_other l1 l2 name m down_pattern)
    by (intros x Hx; apply in_seq in Hx; apply Hd; lia).
  rewrite (select_blocks_other l1 l2 name m up_pattern)
    by (intros x Hx; apply in_seq in Hx; apply Hu; lia).
  reflexivity.
Qed.

Lemma get_block_list_other_names_witness :
  get_block_list toy
    [("down_path.0", 10%nat); ("down_path.0.block", 11%nat);
     ("down_path.1", 20%nat); ("up_path.0", 40%nat)]%string
    (mkNamespace "" "" "" 64 2 "block_filters" 128)
  = Ret ([10%nat; 20%nat], [40%nat]).
Proof.
  etransitivity.
  - apply (get_block_list_other_names toy
             [("down_path.0", 10%nat)]%string
             [("down_path.1", 20%nat); ("up_path.0", 40%nat)]%string
             "down_path.0.block" 11%nat
             (mkNamespace "" "" "" 64 2 "block_filters" 128)).
    + intros y Hy. simpl in Hy.
      destruct y as [| [| y]]; [discriminate | discriminate | lia].
    + intros y Hy. simpl in Hy.
      destruct y as [| y]; [discriminate | lia].
  - reflexivity.
Defined.

(** ** [do_pooling]: composition *)

(** X5.  Poolings compose: for [dep1, dep2 >= 2] and a sufficient
    recursion budget, [do_pooling(dep1, do_pooling(dep2, d))] equals
    [do_pooling(dep1 + dep2 - 1, d)]. *)
Theorem do_pooling_compose (F : framework) (fuel : nat) (dep1 dep2 : Z)
  (d : tensor) :
  2 <= dep1 -> 2 <= dep2 ->
  (Z.to_nat (dep1 + dep2 - 2) <= fuel)%nat ->
  obind (do_pooling F fuel dep2 d) (do_pooling F fuel dep1)
  = do_pooling F fuel (dep1 + dep2 - 1) d
  /\ exists r, do_pooling F fuel (dep1 + dep2 - 1) d = Ret r.
Proof.
  intros H1 H2 Hfuel.
  rewrite (do_pooling_enough_fuel F fuel dep2) by lia. cbn [obind].
  rewrite (do_pooling_enough_fuel F fuel dep1) by lia.
  rewrite (do_pooling_enough_fuel F fuel (dep1 + dep2 - 1)) by lia.
  split; [| eauto]. f_equal.
  replace (Z.to_nat (dep1 + dep2 - 1 - 1))
    with (Z.to_nat (dep1 - 1) + Z.to_nat (dep2 - 1))%nat by lia.
  symmetry. apply Nat.iter_add.
Qed.

Lemma do_pooling_compose_witness :
  obind (do_pooling toy 3 3 (mkTensor [1; 1; 16; 16]%nat []))
        (do_pooling toy 3 2)
  = do_pooling toy 3 4 (mkTensor [1; 1; 16; 16]%nat []).
Proof.
  apply (do_pooling_compose toy 3 2 3 (mkTensor [1; 1; 16; 16]%nat []));
    simpl; lia.
Defined.

(** ** [plot_block]: when the file is written *)




(** ** [sensitivity_analysis]: target class, weights and shape *)

Section SensitivityMore.

Variable F : framework.

Lemma relevance_map_unfold (model : module F) (img : tensor) (tc : option Z) :
  relevance_map F model img tc
  = ([Forward [unsqueeze0 img]],
     obind (one_hot_output_of
              (call1 F (eval F (cpu F model)) (unsqueeze0 img)) tc)
           (fun w => tindex (backward F (eval F (cpu F model))
                               (unsqueeze0 img) w) 0)).
Proof.
  unfold relevance_map, forward1. rewrite bind_emit. cbn [fst snd ret].
  rewrite bind_ret. cbv zeta.
  destruct (one_hot_output_of _ tc) as [w | e |]; reflexivity.
Qed.

Lemma sensitivity_analysis_weights (model : module F) (img : tensor)
  (tc tc' : option Z) (pp : pyval) :
  one_hot_output_of (call1 F (eval F (cpu F model)) (unsqueeze0 img)) tc
  = one_hot_output_of (call1 F (eval F (cpu F model)) (unsqueeze0 img)) tc' ->
  sensitivity_analysis F model img tc pp = sensitivity_analysis F model img tc' pp.
Proof.
  intros H. unfold sensitivity_analysis. rewrite !relevance_map_unfold, H.
  reflexivity.
Qed.

Lemma postprocess_map_shape (r m : tensor) (pp : pyval) :
  postprocess_map r pp = Ret m -> shape m = shape r.
Proof.
  destruct pp as [| s | z]; simpl.
  - intros H. now inversion H.
  - destruct (String.eqb s "abs"); [intros H; now inversion H |].
    destruct (String.eqb s "square"); [intros H; now inversion H | discriminate].
  - discriminate.
Qed.

Lemma tindex_shape (t r : tensor) (i : nat) (s : list nat) :
  shape t = 1%nat :: s -> tindex t i = Ret r -> shape r = s.
Proof.
  unfold tindex. intros ->. destruct (i <? 1)%nat; [| discriminate].
  intros H. now inversion H.
Qed.

End SensitivityMore.

Lemma py_index_out_of_range (n : nat) (t : Z) :
  t < - Z.of_nat n \/ Z.of_nat n <= t -> py_index n t = Raise IndexError.
Proof.
  intros H. unfold py_index.
  replace ((0 <=? t) && (t <? Z.of_nat n))%bool with false
    by (symmetry; apply andb_false_iff; rewrite Z.leb_gt, Z.ltb_ge; lia).
  replace ((- Z.of_nat n <=? t) && (t <? 0))%bool with false
    by (symmetry; apply andb_false_iff; rewrite Z.leb_gt, Z.ltb_ge; lia).
  reflexivity.
Qed.

(** X7.  A [target_class] outside [-C, C) for an output with [C] classes
    is refused at the assignment into the weights: the call raises
    [IndexError] after its one forward pass, whatever [postprocess] is,
    supported or not. *)
Theorem sensitivity_analysis_target_out_of_range (F : framework)
  (model : module F) (image_tensor : tensor) (t : Z) (postprocess : pyval)
  (b C' : nat) (rest : list nat) :
  shape (call1 F (eval F (cpu F model)) (unsqueeze0 image_tensor))
  = S b :: S C' :: rest ->
  t < - Z.of_nat (S C') \/ Z.of_nat (S C') <= t ->
  sensitivity_analysis F model image_tensor (Some t) postprocess
  = ([Forward [unsqueeze0 image_tensor]], Raise IndexError).
Proof.
  intros Hs Ht. unfold sensitivity_analysis. rewrite relevance_map_unfold.
  unfold one_hot_output_of, output_class_of, num_classes. rewrite Hs.
  cbn [obind]. rewrite py_index_out_of_range by assumption. reflexivity.
Qed.

Lemma sensitivity_analysis_target_out_of_range_witness :
  sensitivity_analysis toy 0%nat toy_image (Some (-3)) PyNone
  = ([Forward [unsqueeze0 toy_image]], Raise IndexError).
Proof.
  apply (sensitivity_analysis_target_out_of_range toy 0%nat toy_image (-3)
           PyNone 0%nat 1%nat []).
  - reflexivity.
  - left. simpl. lia.
Defined.

(** X8.  For an output with one score per class, naming the predicted
    class as [target_class] gives the same result, and the same forward
    pass, as leaving [target_class] at [None]. *)
Theorem sensitivity_analysis_predicted_target (F : framework)
  (model : module F) (image_tensor : tensor) (postprocess : pyval)
  (b C' : nat) (rest : list nat) :
  let output := call1 F (eval F (cpu F model)) (unsqueeze0 image_tensor) in
  shape output = S b :: S C' :: rest ->
  numel rest = 1%nat ->
  sensitivity_analysis F model image_tensor
    (Some (Z.of_nat (argmax (class_scores output (S C') 1 0)))) postprocess
  = sensitivity_analysis F model image_tensor None postprocess.
Proof.
  intros output Hs HP. apply sensitivity_analysis_weights. fold output.
  set (c := argmax (class_scores output (S C') 1 0)).
  destruct (one_hot_output_single output None b C' rest c Hs HP eq_refl)
    as [Hc HNone].
  assert (Hidx : py_index (S C') (Z.of_nat c) = Ret c).
  { unfold py_index.
    replace ((0 <=? Z.of_nat c) && (Z.of_nat c <? Z.of_nat (S C')))%bool
      with true
      by (symmetry; apply andb_true_iff; rewrite Z.leb_le, Z.ltb_lt; lia).
    now rewrite Nat2Z.id. }
  destruct (one_hot_output_single output (Some (Z.of_nat c)) b C' rest c
              Hs HP Hidx) as [_ HSome].
  now rewrite HNone, HSome.
Qed.

Lemma sensitivity_analysis_predicted_target_witness :
  sensitivity_analysis toy 0%nat toy_image_neg (Some 1) (PyStr "square")
  = sensitivity_analysis toy 0%nat toy_image_neg None (PyStr "square").
Proof.
  apply (sensitivity_analysis_predicted_target toy 0%nat toy_image_neg
           (PyStr "square") 0%nat 1%nat []); reflexivity.
Defined.

(** X9.  With [target_class=None] the weights handed to [backward] are, in
    batch entry 0, one at every position of a class that is the arg-max
    class at some position of the output, and zero at every position of
    the other classes; with a valid [target_class] they are one at every
    position of that class and zero elsewhere.  They do not depend on the
    position within a class. *)
Theorem one_hot_output_planes (output : tensor) (target_class : option Z)
  (b C' : nat) (rest : list nat) (classes : list nat) :
  shape output = S b :: S C' :: rest ->
  match target_class with
  | None =>
      classes = map (fun p => argmax (class_scores output (S C') (numel rest) p))
                    (seq 0 (numel rest))
  | Some t => exists c, py_index (S C') t = Ret c /\ classes = [c]
  end ->
  exists w,
    one_hot_output_of output target_class = Ret w
    /\ shape w = shape output
    /\ forall c p, (c < S C')%nat -> (p < numel rest)%nat ->
         entry (data w) (numel rest) c p
         = if existsb (Nat.eqb c) classes then 1%Q else 0%Q.
Proof.
  intros Hs Hc.
  exists (set_classes (zeros (shape output)) classes).
  assert (Hw : one_hot_output_of output target_class
               = Ret (set_classes (zeros (shape output)) classes)).
  { unfold one_hot_output_of, output_class_of, num_classes. rewrite Hs.
    cbn [obind]. destruct target_class as [t |].
    - destruct Hc as (c & Hidx & ->). rewrite Hidx. reflexivity.
    - now subst classes. }
  split; [assumption |].
  destruct (set_classes_data (zeros (shape output)) (S b) (S C') rest classes)
    as (Hshape & _ & Hnth).
  { unfold zeros. cbn [shape]. assumption. }
  split; [exact Hshape |].
  intros c p Hc' Hp. unfold entry.
  assert (Hlen : List.length (data (zeros (shape output)))
                 = (S b * (S C' * numel rest))%nat).
  { unfold zeros. cbn [data]. rewrite repeat_length, Hs. reflexivity. }
  rewrite Hnth by (rewrite Hlen; nia).
  replace ((c * numel rest + p) / numel rest)%nat with c
    by (rewrite Nat.div_add_l by lia; rewrite Nat.div_small by lia; lia).
  replace (c * numel rest + p <? S C' * numel rest)%nat with true
    by (symmetry; apply Nat.ltb_lt; nia).
  cbn [andb]. unfold zeros. cbn [data]. rewrite nth_repeat.
  reflexivity.
Qed.

Lemma one_hot_output_planes_witness :
  exists w,
    one_hot_output_of (toy_call1 7 toy_image) None = Ret w
    /\ entry (data w) 2 0 1 = 1%Q /\ entry (data w) 2 1 0 = 1%Q.
Proof.
  destruct (one_hot_output_planes (toy_call1 7 toy_image) None
              0%nat 1%nat [1; 2]%nat [0; 1]%nat eq_refl eq_refl)
    as (w & Hw & _ & Hentry).
  exists w. split; [assumption |]. split.
  - apply (Hentry 0%nat 1%nat); simpl; lia.
  - apply (Hentry 1%nat 0%nat); simpl; lia.
Defined.

Lemma sensitivity_analysis_returns_shape (F : framework) (model : module F)
  (img : tensor) (tc : option Z) (pp : pyval) (m : tensor) :
  grad_shape F ->
  snd (sensitivity_analysis F model img tc pp) = Ret m ->
  shape m = shape img.
Proof.
  intros Hgrad H. apply sensitivity_analysis_returns_inv in H.
  destruct H as (r & Hr & Hm).
  rewrite (postprocess_map_shape r m pp Hm).
  rewrite relevance_map_unfold in Hr. cbn [snd] in Hr.
  destruct (one_hot_output_of _ tc) as [w | e |];
    cbn [obind] in Hr; try discriminate.
  eapply tindex_shape; [| exact Hr]. rewrite Hgrad. reflexivity.
Qed.

(** X10.  When the gradient has the shape of the tensor it is taken with
    respect to, every map [sensitivity_analysis] returns has the shape of
    [image_tensor]: the batch dimension added for the forward pass is
    taken off again. *)
Theorem sensitivity_analysis_shape (F : framework) (model : module F)
  (image_tensor : tensor) (target_class : option Z) (postprocess : pyval)
  (m : tensor) :
  grad_shape F ->
  snd (sensitivity_analysis F model image_tensor target_class postprocess)
  = Ret m ->
  shape m = shape image_tensor.
Proof. apply sensitivity_analysis_returns_shape. Qed.

Lemma toy_grad_shape : grad_shape toy.
Proof. intros m X g. reflexivity. Qed.

Lemma sensitivity_analysis_shape_witness :
  shape (mkTensor [1; 1; 1]%nat [Qabs (-1)]) = shape toy_image_neg.
Proof.
  apply (sensitivity_analysis_shape toy 0%nat toy_image_neg None (PyStr "abs")
           _ toy_grad_shape).
  reflexivity.
Defined.

(** ** [plot_sensitivity]: the leading dimension of the image *)



(** ** [block_filters]: missing blocks, and the recursion budget *)

Lemma get_block_list_missing (F : framework)
  (cl : list (string * module F)) (args : Namespace) :
  ~ blocks_present cl (depth args) ->
  get_block_list F cl args = Raise IndexError.
Proof.
  intros H. rewrite get_block_list_select.
  destruct (select_blocks cl down_pattern (range (depth args)))
    as [down |] eqn:Hdown; [| reflexivity].
  destruct (select_blocks cl up_pattern (range (depth args - 1)))
    as [up |] eqn:Hup; [| reflexivity].
  exfalso. apply H. apply blocks_present_select. eauto.
Qed.

(** X12.  When [depth <= 0], or when the model lacks one of the blocks the
    patterns name, [block_filters] raises [IndexError] right after loading
    the image: no forward pass is run and no file is written. *)
Theorem block_filters_missing_block (F : framework) (fuel : nat)
  (model : module F) (img_path : string) (args : Namespace) :
  depth args <= 0 \/ ~ blocks_present (all_children F model) (depth args) ->
  block_filters F fuel model img_path args
  = ([Call BlockFilters; LoadImage img_path], Raise IndexError).
Proof.
  intros [H | H].
  - now apply block_filters_no_block.
  - unfold block_filters. rewrite !bind_emit. cbv zeta.
    rewrite get_block_list_missing by assumption. reflexivity.
Qed.

Lemma block_filters_missing_block_witness :
  block_filters toy 5 0%nat "img"
    (mkNamespace "" "out" "" 64 4 "block_filters" 128)
  = ([Call BlockFilters; LoadImage "img"], Raise IndexError).
Proof.
  apply block_filters_missing_block. right.
  intros [Hd _]. destruct (Hd 3%nat ltac:(simpl; lia)) as [m Hm].
  simpl in Hm.
  repeat (destruct Hm as [Hm | Hm]; [discriminate |]). exact Hm.
Defined.

Lemma halting_ret {A} (Q : A -> Prop) (a : A) : Q a -> halting Q (ret a).
Proof.
  intros H. split; simpl; [discriminate |]. intros a' Ha. now inversion Ha; subst.
Qed.

Lemma halting_lift {A} (Q : A -> Prop) (o : outcome A) :
  o <> OutOfFuel -> (forall a, o = Ret a -> Q a) -> halting Q (lift o).
Proof. intros H HQ. split; assumption. Qed.

Lemma halting_emit (e : event) : halting (fun _ => True) (emit e).
Proof. split; simpl; [discriminate | auto]. Qed.

Lemma halting_bind {A B} (Q : A -> Prop) (R : B -> Prop) (m : M A)
  (k : A -> M B) :
  halting Q m -> (forall a, Q a -> halting R (k a)) -> halting R (bind m k).
Proof.
  intros [Hm HQ] Hk. destruct m as [tr [a | e |]]; cbn [snd] in *.
  - destruct (Hk a (HQ a eq_refl)) as [Hk1 Hk2].
    rewrite bind_ret. split; assumption.
  - split; simpl; [discriminate | intros b Hb; discriminate].
  - congruence.
Qed.

Lemma halting_for {A} (l : list A) (body : A -> M unit) :
  (forall x, In x l -> halting (fun _ => True) (body x)) ->
  halting (fun _ => True) (for_ l body).
Proof.
  induction l as [| x l IH]; intros H; simpl.
  - now apply halting_ret.
  - apply halting_bind with (Q := fun _ => True).
    + apply H. now left.
    + intros _ _. apply IH. intros y Hy. apply H. now right.
Qed.

Lemma halting_fold {A St} (l : list A) (body : St -> A -> M St) :
  (forall s x, In x l -> halting (fun _ => True) (body s x)) ->
  forall s, halting (fun _ => True) (fold_ l body s).
Proof.
  induction l as [| x l IH]; intros H s; simpl.
  - now apply halting_ret.
  - apply halting_bind with (Q := fun _ => True).
    + apply H. now left.
    + intros s' _. apply IH. intros s0 y Hy. apply H. now right.
Qed.

Lemma getitem_halts {A} (l : list A) (i : nat) : getitem l i <> OutOfFuel.
Proof. unfold getitem. destruct (nth_error l i); discriminate. Qed.

Lemma halting_getitem {A} (l : list A) (i : nat) :
  halting (fun _ => True) (lift (getitem l i)).
Proof. apply halting_lift; [apply getitem_halts | auto]. Qed.

Lemma halting_plot_block (args : Namespace) (block : tensor) (img_size : Z)
  (name : string) :
  halting (fun _ => True) (plot_block args block img_size name).
Proof.
  destruct (plot_block_cases args block img_size name) as [H | H]; rewrite H;
    split; simpl; auto; discriminate.
Qed.

Lemma store_all_halts (F : framework) (occs : list (flag * string))
  (ns : Namespace) :
  store_all F occs ns <> OutOfFuel.
Proof.
  destruct (forallb (accepted F) occs) eqn:E.
  - destruct (store_all_accepted F occs ns E) as (ns' & H & _). congruence.
  - rewrite store_all_refused by assumption. discriminate.
Qed.

Lemma parse_args_halts (F : framework) (args : list string) :
  parse_args F args <> OutOfFuel.
Proof.
  unfold parse_args. destruct (scan_args F args); [discriminate |].
  apply store_all_halts.
Qed.

Lemma plot_sensitivity_halts (F : framework) (img_path : string)
  (model : module F) (args : Namespace) :
  halts (plot_sensitivity F img_path model args).
Proof.
  unfold halts, plot_sensitivity. rewrite !bind_emit. cbn [fst snd]. cbv zeta.
  unfold sensitivity_analysis. rewrite relevance_map_unfold.
  unfold one_hot_output_of, output_class_of.
  destruct (shape (call1 F _ _)) as [| [| b] [| [| C'] rest]];
    try (cbn; discriminate).
  cbn [obind].
  destruct (tindex _ 0) as [r | e |] eqn:Hr.
  - rewrite bind_ret. cbn [postprocess_map String.eqb Ascii.eqb Bool.eqb lift fst snd].
    rewrite bind_ret. cbn [fst snd].
    destruct (np_squeeze0 (np_abs r)) as [m | e |] eqn:Hm.
    + rewrite bind_lift_ret. discriminate.
    + discriminate.
    + unfold np_squeeze0 in Hm.
      destruct (shape (np_abs r)) as [| [| [| n]] rest']; discriminate.
  - discriminate.
  - unfold tindex in Hr. destruct (shape _) as [| n rest']; [discriminate |].
    destruct (0 <? n)%nat; discriminate.
Qed.

Section BlockFiltersHalts.

Variable F : framework.

Lemma block_filters_halting (fuel : nat) (model : module F)
  (img_path : string) (args : Namespace) :
  (Z.to_nat (depth args - 1) <= fuel)%nat ->
  halts (block_filters F fuel model img_path args).
Proof.
  intros Hfuel.
  apply (@proj1 _ (forall a, snd (block_filters F fuel model img_path args)
                             = Ret a -> True)).
  change (halting (fun _ => True) (block_filters F fuel model img_path args)).
  unfold block_filters. cbv zeta.
  apply halting_bind with (Q := fun _ => True); [apply halting_emit |].
  intros _ _.
  apply halting_bind with (Q := fun _ => True); [apply halting_emit |].
  intros _ _.
  apply halting_bind
    with (Q := fun lists : list (module F) * list (module F) =>
                 List.length (snd lists) = Z.to_nat (depth args - 1)).
  { apply halting_lift; rewrite get_block_list_select;
      destruct (select_blocks (all_children F model) down_pattern
                  (range (depth args))) as [down |];
      destruct (select_blocks (all_children F model) up_pattern
                  (range (depth args - 1))) as [up |] eqn:Hup;
      try discriminate.
    intros lists H. inversion H; subst lists. cbn [snd].
    now apply select_blocks_seq in Hup. }
  intros lists Hlen.
  apply halting_bind with (Q := fun _ => True); [apply halting_getitem |].
  intros d0 _.
  apply halting_bind with (Q := fun _ => True).
  { split; simpl; [discriminate | auto]. }
  intros l0 _.
  apply halting_bind with (Q := fun _ => True).
  { apply halting_fold. intros dep_list i _.
    apply halting_bind with (Q := fun _ => True); [apply halting_getitem |].
    intros blk _.
    apply halting_bind with (Q := fun _ => True); [apply halting_getitem |].
    intros x _.
    apply halting_bind with (Q := fun _ => True).
    { split; simpl; [discriminate | auto]. }
    intros layer _. now apply halting_ret. }
  intros dep_list _.
  apply halting_bind with (Q := fun _ => True).
  { apply halting_for. intros jm _.
    apply halting_bind with (Q := fun _ => True); [apply halting_getitem |].
    intros b _. apply halting_plot_block. }
  intros _ _.
  apply halting_bind with (Q := fun _ => True).
  { apply halting_fold. intros up_block i Hi.
    unfold range, len in Hi. apply in_seq in Hi.
    apply halting_bind with (Q := fun _ => True); [apply halting_getitem |].
    intros d _.
    apply halting_bind with (Q := fun _ => True).
    { apply halting_lift; [| auto].
      rewrite do_pooling_enough_fuel by lia. discriminate. }
    intros pools _.
    apply halting_bind with (Q := fun _ => True); [apply halting_getitem |].
    intros blk _.
    apply halting_bind with (Q := fun _ => True); [apply halting_getitem |].
    intros br _.
    apply halting_bind with (Q := fun _ => True).
    { split; simpl; [discriminate | auto]. }
    intros up_layer _. now apply halting_ret. }
  intros up_block _.
  apply halting_for. intros jm _.
  apply halting_bind with (Q := fun _ => True); [apply halting_getitem |].
  intros b _. apply halting_plot_block.
Qed.

End BlockFiltersHalts.

(** X13.  The script cannot recurse without end: [block_filters] calls
    [do_pooling(depth, _)] only inside the loop over the up blocks, which
    is entered only when [depth >= 2].  So with a recursion budget for
    [depth - 1] nested calls neither [block_filters], whatever the model
    and the depth, nor [main], whatever the arguments, exhausts it. *)
Theorem script_halts (F : framework) (fuel : nat) :
  (forall model img_path args,
     (Z.to_nat (depth args - 1) <= fuel)%nat ->
     halts (block_filters F fuel model img_path args))
  /\ (forall argv,
        (forall args, parse_args F (argv_of F argv) = Ret args ->
                      (Z.to_nat (depth args - 1) <= fuel)%nat) ->
        halts (main F fuel argv)).
Proof.
  split.
  - intros model img_path args. apply block_filters_halting.
  - intros argv Hfuel. unfold halts, main. fold (argv_of F argv).
    destruct (parse_args F (argv_of F argv)) as [args | e |] eqn:Hparse.
    + rewrite bind_lift_ret.
      assert (Hroutine : halts (dispatched F fuel args)).
      { unfold dispatched, run_routine, selected.
        destruct (String.eqb (plot_interpret args) "sensitivity").
        - apply plot_sensitivity_halts.
        - apply block_filters_halting. now apply Hfuel. }
      unfold dispatched, run_routine, selected, halts in Hroutine.
      destruct (parse_args_choice F _ _ Hparse) as [Hs | Hb];
        rewrite Hs in * || rewrite Hb in *;
        cbn [String.eqb Ascii.eqb Bool.eqb andb] in *;
        destruct (path_exists F (interpret_path args)); cbn [negb];
        unfold ret; rewrite ?bind_emit, ?bind_ret; cbn [fst snd];
        rewrite ?bind_emit, ?bind_ret; cbn [fst snd];
        match goal with
        | |- context [bind ?r _] =>
            destruct r as [tr [[] | e |]]; cbn [snd] in *;
            rewrite ?bind_ret; cbn [fst snd]; try discriminate; congruence
        end.
    + discriminate.
    + exfalso. now apply (parse_args_halts F (argv_of F argv)).
Qed.

Lemma script_halts_witness :
  halts (main toy 2 (Some ["--depth"; "3"]%string))
  /\ halts (block_filters toy 0 0%nat "img"
              (mkNamespace "" "" "" 64 1 "block_filters" 128)).
Proof.
  destruct (script_halts toy 2) as [_ Hmain].
  destruct (script_halts toy 0) as [Hblock _].
  split.
  - apply Hmain. intros args H. inversion H; subst. simpl. lia.
  - apply Hblock. simpl. lia.
Defined.

(** ** [main]: outcome, directory and closing message *)

Section MainMore.

Variable F : framework.



End MainMore.


(** ** [block_filters]: the forward passes *)

Lemma passes_ret {A} (Q : A -> Prop) (a : A) : Q a -> passes (ret a) [] Q.
Proof. intros H. exists [], a. auto. Qed.

Lemma passes_lift {A} (Q : A -> Prop) (o : outcome A) (a : A) :
  o = Ret a -> Q a -> passes (lift o) [] Q.
Proof. intros -> H. exists [], a. auto. Qed.

Lemma passes_emit (e : event) :
  passes (emit e) (forwarded [e]) (fun _ => True).
Proof. exists [e], tt. auto. Qed.

Lemma passes_bind {A B} (Q : A -> Prop) (R : B -> Prop) (m : M A)
  (k : A -> M B) (p1 p2 : list tensor) :
  passes m p1 Q -> (forall a, Q a -> passes (k a) p2 R) ->
  passes (bind m k) (p1 ++ p2) R.
Proof.
  intros (tr & a & -> & Hp1 & Ha) Hk.
  destruct (Hk a Ha) as (tr' & b & Hkb & Hp2 & Hb).
  exists (tr ++ tr'), b. rewrite bind_ret, Hkb. cbn [fst snd].
  unfold forwarded in *. rewrite flat_map_app, Hp1, Hp2. auto.
Qed.

Lemma passes_eq {A} (Q : A -> Prop) (m : M A) (p p' : list tensor) :
  passes m p Q -> p = p' -> passes m p' Q.
Proof. intros H <-. exact H. Qed.

Lemma passes_for_none {A} (l : list A) (body : A -> M unit) :
  (forall x, In x l -> passes (body x) [] (fun _ => True)) ->
  passes (for_ l body) [] (fun _ => True).
Proof.
  induction l as [| x l IH]; intros H; simpl.
  - now apply passes_ret.
  - apply passes_eq with (p := [] ++ []); [| reflexivity].
    apply passes_bind with (Q := fun _ => True).
    + apply H. now left.
    + intros _ _. apply IH. intros y Hy. apply H. now right.
Qed.

(** A loop that threads both its state and what it has forwarded. *)
Lemma passes_fold {A St} (I : nat -> St -> list tensor -> Prop)
  (body : St -> A -> M St) (l : list A) :
  forall k s out,
    I k s out ->
    (forall i x s out, nth_error l i = Some x -> I (k + i)%nat s out ->
       exists xs, passes (body s x) xs
                    (fun s' => I (S (k + i)) s' (out ++ xs))) ->
    exists xs, passes (fold_ l body s) xs
                 (fun s' => I (k + List.length l)%nat s' (out ++ xs)).
Proof.
  induction l as [| x l IH]; intros k s out Hs H; simpl.
  - exists []. apply passes_ret. now rewrite Nat.add_0_r, app_nil_r.
  - destruct (H 0%nat x s out eq_refl) as (xs1 & tr1 & s1 & Hrun1 & Hf1 & Hs1).
    { now rewrite Nat.add_0_r. }
    rewrite Nat.add_0_r in Hs1.
    destruct (IH (S k) s1 (out ++ xs1) Hs1) as (xs2 & tr2 & s2 & Hrun2 & Hf2 & Hs2).
    { intros i y s0 out0 Hy Hs0.
      replace (S k + i)%nat with (k + S i)%nat in * by lia.
      now apply (H (S i) y s0 out0). }
    exists (xs1 ++ xs2), (tr1 ++ tr2), s2.
    rewrite Hrun1, bind_ret, Hrun2. cbn [fst snd].
    split; [reflexivity |]. split.
    + unfold forwarded in *. now rewrite flat_map_app, Hf1, Hf2.
    + replace (k + S (List.length l))%nat with (S k + List.length l)%nat by lia.
      now rewrite app_assoc.
Qed.

Lemma last_cons_default {A} (l : list A) :
  forall a d, last (a :: l) d = last l a.
Proof.
  induction l as [| b l IH]; intros a d; [reflexivity |].
  change (last (a :: b :: l) d) with (last (b :: l) d).
  now rewrite !IH.
Qed.

Lemma nth_error_last {A} (l : list A) :
  forall i t d, List.length l = S i -> nth_error l i = Some t -> last l d = t.
Proof.
  induction l as [| a l IH]; intros i t d Hlen Ht; [discriminate |].
  destruct l as [| b l].
  - destruct i; simpl in *; [now inversion Ht | lia].
  - destruct i as [| i]; [simpl in Hlen; lia |].
    change (last (a :: b :: l) d) with (last (b :: l) d).
    apply (IH i); simpl in *; [lia | assumption].
Qed.

Lemma firstn_snoc {A} (l : list A) :
  forall k b, nth_error l k = Some b -> firstn (S k) l = firstn k l ++ [b].
Proof.
  induction l as [| a l IH]; intros k b H.
  - destruct k; discriminate.
  - destruct k as [| k]; simpl in *.
    + now inversion H.
    + f_equal. now apply IH.
Qed.

Section ForwardPasses.

Variable F : framework.

Lemma chain_outputs_length (l : list (module F)) :
  forall x, List.length (chain_outputs F l x) = List.length l.
Proof. induction l as [| b l IH]; intros x; simpl; [reflexivity | now rewrite IH]. Qed.

Lemma chain_outputs_snoc (l : list (module F)) (b : module F) :
  forall x,
    chain_outputs F (l ++ [b]) x
    = chain_outputs F l x ++ [call1 F b (last (chain_outputs F l x) x)].
Proof.
  induction l as [| a l IH]; intros x; [reflexivity |].
  cbn [app chain_outputs]. rewrite IH. cbn [app]. do 4 f_equal.
  symmetry. apply last_cons_default.
Qed.

Lemma chain_outputs_nth (l : list (module F)) :
  forall x j t,
    nth_error (chain_outputs F l x) j = Some t ->
    exists m y, nth_error l j = Some m /\ t = call1 F m y.
Proof.
  induction l as [| b l IH]; intros x j t H.
  - destruct j; discriminate.
  - destruct j as [| j]; simpl in H.
    + inversion H. exists b, x. auto.
    + apply IH in H. exact H.
Qed.

Lemma passes_forward1 (m : module F) (x : tensor) :
  passes (forward1 F m x) [x] (fun y => y = call1 F m x).
Proof. exists [Forward [x]], (call1 F m x). auto. Qed.

Lemma passes_forward2 (m : module F) (x bridge : tensor) :
  passes (forward2 F m x bridge) [x; bridge] (fun y => y = call2 F m x bridge).
Proof. exists [Forward [x; bridge]], (call2 F m x bridge). auto. Qed.

Lemma passes_plot_loop (args : Namespace) (name : string) (sizes : list Z)
  (blocks : list tensor) :
  (forall j t sz, nth_error blocks j = Some t -> nth_error sizes j = Some sz ->
     has_channels t (Z.to_nat sz)) ->
  passes
    (for_ (combine (range (len blocks)) sizes) (fun jm =>
       b <- lift (getitem blocks (fst jm)) ;;
       plot_block args b (snd jm) name))
    [] (fun _ => True).
Proof.
  intros Hch. unfold range, len. rewrite Nat2Z.id.
  apply passes_for_none. intros [j sz] Hin. cbn [fst snd].
  apply in_combine_seq in Hin. destruct Hin as [Hj Hsz].
  rewrite Nat.sub_0_r in Hsz.
  destruct (nth_error_below blocks j ltac:(lia)) as [t Ht].
  apply passes_eq with (p := [] ++ []); [| reflexivity].
  apply passes_bind with (Q := fun b => b = t).
  - apply passes_lift with (a := t); [now apply getitem_some | reflexivity].
  - intros b ->. rewrite plot_block_ok by (eapply Hch; eassumption).
    exists [Savefig (block_path args name sz)], tt. auto.
Qed.

(** The loop over the down blocks: each block is applied to the output of
    the block before it. *)
Lemma passes_down_loop (down : list (module F)) (d0 : module F) (input : tensor) :
  nth_error down 0 = Some d0 ->
  passes
    (fold_ (range2 1 (len down)) (fun dep_list i =>
       blk <- lift (getitem down i) ;;
       x <- lift (getitem dep_list (i - 1)) ;;
       layer <- forward1 F blk x ;;
       ret (dep_list ++ [layer])) [call1 F d0 input])
    (removelast (chain_outputs F down input))
    (fun dep_list => dep_list = chain_outputs F down input).
Proof.
  intros Hd0.
  assert (Hpos : (1 <= List.length down)%nat).
  { destruct down; [discriminate | simpl; lia]. }
  unfold range2, len. change (Z.to_nat 1) with 1%nat.
  replace (Z.to_nat (Z.of_nat (List.length down) - 1))
    with (List.length down - 1)%nat by lia.
  destruct (passes_fold
    (fun k (dep_list : list tensor) out =>
       dep_list = chain_outputs F (firstn k down) input
       /\ out = removelast dep_list)
    (fun dep_list i =>
       blk <- lift (getitem down i) ;;
       x <- lift (getitem dep_list (i - 1)) ;;
       layer <- forward1 F blk x ;;
       ret (dep_list ++ [layer]))
    (seq 1 (List.length down - 1)) 1%nat [call1 F d0 input] [])
    as (xs & tr & dep_list & Hrun & Hfw & Hdep & Hout).
  - destruct down as [| b down]; [discriminate |]. inversion Hd0; subst b.
    split; reflexivity.
  - intros i x dep_list out Hx [Hdep Hout].
    rewrite nth_error_seq in Hx.
    destruct (i <? List.length down - 1)%nat eqn:Hi; [| discriminate].
    apply Nat.ltb_lt in Hi. inversion Hx; subst x.
    assert (Hlen : List.length dep_list = (1 + i)%nat).
    { rewrite Hdep, chain_outputs_length, length_firstn. lia. }
    destruct (nth_error_below down (1 + i)%nat ltac:(lia)) as [blk Hblk].
    destruct (nth_error_below dep_list i ltac:(lia)) as [t Ht].
    exists [t].
    apply passes_eq with (p := [] ++ [] ++ [t] ++ []); [| reflexivity].
    apply passes_bind with (Q := fun b => b = blk).
    { apply passes_lift with (a := blk);
        [now apply getitem_some | reflexivity]. }
    intros b ->.
    apply passes_bind with (Q := fun y => y = t).
    { apply passes_lift with (a := t); [| reflexivity].
      apply getitem_some. now replace (S i - 1)%nat with i by lia. }
    intros y ->.
    apply passes_bind with (Q := fun y => y = call1 F blk t).
    { apply passes_forward1. }
    intros layer ->. apply passes_ret.
    assert (Hlast : last dep_list input = t)
      by (apply (nth_error_last dep_list i); assumption).
    split.
    + rewrite (firstn_snoc down (1 + i) blk Hblk), chain_outputs_snoc.
      rewrite <- Hdep, Hlast. reflexivity.
    + rewrite removelast_last. rewrite Hout. rewrite <- Hlast.
      symmetry. apply app_removelast_last.
      destruct dep_list; [discriminate | discriminate].
  - replace (1 + List.length (seq 1 (List.length down - 1)))%nat
      with (List.length down) in Hdep by (rewrite length_seq; lia).
    rewrite firstn_all in Hdep. cbn [app] in Hout.
    exists tr, dep_list. split; [assumption |]. split; [| assumption].
    rewrite Hfw, Hout, Hdep. reflexivity.
Qed.

End ForwardPasses.

Section ForwardPassesUp.

Variable F : framework.

Lemma up_inputs_succ (n k : nat) (dep_list : list tensor) :
  up_inputs F n (S k) dep_list
  = up_inputs F n k dep_list
    ++ [Nat.iter n (avg_pool2d F) (nth (k + 1) dep_list (mkTensor [] []));
        avg_pool2d F (nth k dep_list (mkTensor [] []))].
Proof.
  unfold up_inputs. rewrite seq_S, flat_map_app. cbn [flat_map Nat.add app].
  reflexivity.
Qed.

Lemma up_inputs_length (n k : nat) (dep_list : list tensor) :
  List.length (up_inputs F n k dep_list) = (2 * k)%nat.
Proof.
  induction k as [| k IH]; [reflexivity |].
  rewrite up_inputs_succ, length_app, IH. simpl. lia.
Qed.

(** The loop over the up blocks: block [i] of the reversed up list gets
    [dep_list[i + 1]] pooled [depth - 1] times and [dep_list[i]] pooled
    once. *)
Lemma passes_up_loop (fuel : nat) (dep : Z) (dep_list : list tensor)
  (up : list (module F)) :
  List.length up = Z.to_nat (dep - 1) ->
  List.length dep_list = Z.to_nat dep ->
  1 <= dep ->
  (Z.to_nat (dep - 1) <= fuel)%nat ->
  passes
    (fold_ (range (len up)) (fun up_block i =>
       d <- lift (getitem dep_list (i + 1)) ;;
       pools <- lift (do_pooling F fuel dep d) ;;
       blk <- lift (getitem (rev up) i) ;;
       br <- lift (getitem dep_list i) ;;
       up_layer <- forward2 F blk pools (avg_pool2d F br) ;;
       ret (up_block ++ [up_layer])) [])
    (up_inputs F (Z.to_nat (dep - 1)) (Z.to_nat (dep - 1)) dep_list)
    (fun up_block =>
       List.length up_block = List.length up
       /\ forall j t, nth_error up_block j = Some t ->
            exists m x y, nth_error (rev up) j = Some m /\ t = call2 F m x y).
Proof.
  intros Hlu Hld Hdep Hfuel. unfold range, len. rewrite Nat2Z.id.
  destruct (passes_fold
    (fun k (up_block : list tensor) out =>
       (List.length up_block = k
        /\ forall j t, nth_error up_block j = Some t ->
             exists m x y, nth_error (rev up) j = Some m /\ t = call2 F m x y)
       /\ out = up_inputs F (Z.to_nat (dep - 1)) k dep_list)
    (fun up_block i =>
       d <- lift (getitem dep_list (i + 1)) ;;
       pools <- lift (do_pooling F fuel dep d) ;;
       blk <- lift (getitem (rev up) i) ;;
       br <- lift (getitem dep_list i) ;;
       up_layer <- forward2 F blk pools (avg_pool2d F br) ;;
       ret (up_block ++ [up_layer]))
    (seq 0 (List.length up)) 0%nat [] [])
    as (xs & tr & up_block & Hrun & Hfw & [Hlen Hel] & Hout).
  - split; [split; [reflexivity |] | reflexivity].
    intros [| j] t Ht; discriminate.
  - intros i x up_block out Hx [[Hlen Hel] Hout].
    rewrite nth_error_seq in Hx.
    destruct (i <? List.length up)%nat eqn:Hi; [| discriminate].
    apply Nat.ltb_lt in Hi. inversion Hx; subst x. cbn [Nat.add] in *.
    destruct (nth_error_below dep_list (i + 1)%nat ltac:(lia)) as [d Hd].
    destruct (nth_error_below (rev up) i
                ltac:(rewrite length_rev; lia)) as [blk Hblk].
    destruct (nth_error_below dep_list i ltac:(lia)) as [br Hbr].
    exists [Nat.iter (Z.to_nat (dep - 1)) (avg_pool2d F) d; avg_pool2d F br].
    apply passes_eq
      with (p := [] ++ [] ++ [] ++ []
                 ++ [Nat.iter (Z.to_nat (dep - 1)) (avg_pool2d F) d;
                     avg_pool2d F br] ++ []);
      [| reflexivity].
    apply passes_bind with (Q := fun y => y = d).
    { apply passes_lift with (a := d); [now apply getitem_some | reflexivity]. }
    intros y ->.
    apply passes_bind
      with (Q := fun y => y = Nat.iter (Z.to_nat (dep - 1)) (avg_pool2d F) d).
    { eapply passes_lift; [| reflexivity].
      apply do_pooling_enough_fuel; lia. }
    intros pools ->.
    apply passes_bind with (Q := fun y => y = blk).
    { apply passes_lift with (a := blk); [now apply getitem_some | reflexivity]. }
    intros y ->.
    apply passes_bind with (Q := fun y => y = br).
    { apply passes_lift with (a := br); [now apply getitem_some | reflexivity]. }
    intros y ->.
    apply passes_bind
      with (Q := fun y => y = call2 F blk
                              (Nat.iter (Z.to_nat (dep - 1)) (avg_pool2d F) d)
                              (avg_pool2d F br)).
    { apply passes_forward2. }
    intros up_layer ->. apply passes_ret. split; [split |].
    + rewrite length_app. simpl. lia.
    + intros j u Hu. rewrite nth_error_app in Hu.
      destruct (j <? List.length up_block)%nat eqn:Hj.
      * eapply Hel; eassumption.
      * apply Nat.ltb_ge in Hj.
        destruct (j - List.length up_block)%nat as [| j'] eqn:Ej;
          simpl in Hu; [| destruct j'; discriminate].
        inversion Hu; subst u. do 3 eexists.
        replace j with i by lia. split; [eassumption | reflexivity].
    + rewrite up_inputs_succ, Hout.
      rewrite (nth_error_nth _ _ (mkTensor [] []) Hd).
      rewrite (nth_error_nth _ _ (mkTensor [] []) Hbr). reflexivity.
  - cbn [Nat.add app] in *. rewrite length_seq in *.
    exists tr, up_block. split; [assumption |]. split.
    + rewrite Hfw, Hout, Hlu. reflexivity.
    + split; assumption.
Qed.

Lemma block_filters_passes (fuel : nat) (model : module F) (img_path : string)
  (args : Namespace) (down up : list (module F)) :
  get_block_list F (all_children F model) args = Ret (down, up) ->
  1 <= depth args ->
  enough_channels F (all_children F model) (depth args) ->
  (Z.to_nat (depth args - 1) <= fuel)%nat ->
  passes (block_filters F fuel model img_path args)
    (unsqueeze0 (fst (load_image F img_path args))
     :: removelast
          (chain_outputs F down (unsqueeze0 (fst (load_image F img_path args))))
     ++ up_inputs F (Z.to_nat (depth args - 1)) (Z.to_nat (depth args - 1))
          (chain_outputs F down (unsqueeze0 (fst (load_image F img_path args)))))
    (fun _ => True).
Proof.
  intros Hlists Hdepth [Hcd Hcu] Hfuel.
  pose proof Hlists as Hsel. rewrite get_block_list_select in Hsel.
  destruct (select_blocks (all_children F model) down_pattern
              (range (depth args))) as [down' |] eqn:Hdown; [| discriminate].
  destruct (select_blocks (all_children F model) up_pattern
              (range (depth args - 1))) as [up' |] eqn:Hup; [| discriminate].
  inversion Hsel; subst down' up'. clear Hsel.
  apply select_blocks_seq in Hdown. apply select_blocks_seq in Hup.
  destruct Hdown as [Hld Hnd], Hup as [Hlu Hnu].
  destruct (nth_error_below down 0%nat ltac:(lia)) as [d0 Hd0].
  set (input := unsqueeze0 (fst (load_image F img_path args))).
  unfold block_filters. cbv zeta. fold input.
  eapply passes_eq.
  { apply passes_bind with (Q := fun _ => True); [apply passes_emit |].
    intros _ _.
    apply passes_bind with (Q := fun _ => True); [apply passes_emit |].
    intros _ _.
    apply passes_bind with (Q := fun lists => lists = (down, up)).
    { apply passes_lift with (a := (down, up)); [assumption | reflexivity]. }
    intros lists ->. cbn [fst snd].
    apply passes_bind with (Q := fun d => d = d0).
    { apply passes_lift with (a := d0); [now apply getitem_some | reflexivity]. }
    intros d ->.
    apply passes_bind with (Q := fun y => y = call1 F d0 input).
    { apply passes_forward1. }
    intros l0 ->.
    apply passes_bind with (Q := fun dep_list => dep_list = chain_outputs F down input).
    { now apply passes_down_loop. }
    intros dep_list ->.
    assert (Hlen : List.length (chain_outputs F down input)
                   = Z.to_nat (depth args))
      by now rewrite chain_outputs_length.
    apply passes_bind with (Q := fun _ => True).
    { apply passes_plot_loop. intros j t sz Ht Hsz.
      destruct (chain_outputs_nth F down input j t Ht) as (m & x & Hm & ->).
      apply (Hcd j sz m x Hsz). rewrite <- Hnd; [assumption |].
      rewrite <- Hld. apply nth_error_Some. congruence. }
    intros _ _.
    apply passes_bind
      with (Q := fun up_block : list tensor =>
                   List.length up_block = List.length up
                   /\ forall j t, nth_error up_block j = Some t ->
                        exists m x y,
                          nth_error (rev up) j = Some m /\ t = call2 F m x y).
    { apply passes_up_loop; assumption. }
    intros up_block [Hlenu Hupb].
    replace (len up) with (len up_block) by (unfold len; congruence).
    apply passes_plot_loop. intros j t sz Ht Hsz.
    destruct (Hupb j t Ht) as (m & x & y & Hm & ->).
    apply (Hcu j sz m x y Hsz).
    rewrite nth_error_rev in Hm.
    destruct (j <? List.length up)%nat eqn:Hj; [| discriminate].
    apply Nat.ltb_lt in Hj. rewrite Hnu in Hm by lia.
    rewrite <- Hm. f_equal. f_equal. lia. }
  cbn [forwarded flat_map app]. now rewrite !app_nil_r.
Qed.

End ForwardPassesUp.

(** X15.  On a model that has its blocks, with outputs of enough channels,
    [block_filters] runs [depth] forward passes through the down blocks
    and [depth - 1] through the up blocks: the first down block is applied
    to [img_tensor.unsqueeze(0)] and each next one to the output of the
    block before it, with no pooling in between; then, for each [i], an up
    block is applied to the output of down block [i + 1] pooled
    [depth - 1] times and to the output of down block [i] pooled once. *)
Theorem block_filters_forward_passes (F : framework) (fuel : nat)
  (model : module F) (img_path : string) (args : Namespace)
  (down up : list (module F)) :
  get_block_list F (all_children F model) args = Ret (down, up) ->
  1 <= depth args ->
  enough_channels F (all_children F model) (depth args) ->
  (Z.to_nat (depth args - 1) <= fuel)%nat ->
  let input := unsqueeze0 (fst (load_image F img_path args)) in
  let dep_list := chain_outputs F down input in
  let passes_made := forwarded (fst (block_filters F fuel model img_path args)) in
  passes_made
  = input :: removelast dep_list
    ++ up_inputs F (Z.to_nat (depth args - 1)) (Z.to_nat (depth args - 1)) dep_list
  /\ List.length dep_list = Z.to_nat (depth args)
  /\ List.length passes_made = (3 * Z.to_nat (depth args) - 2)%nat.
Proof.
  intros Hlists Hdepth Hch Hfuel input dep_list passes_made.
  destruct (block_filters_passes F fuel model img_path args down up
              Hlists Hdepth Hch Hfuel) as (tr & [] & Hrun & Hfw & _).
  assert (Hlen : List.length dep_list = Z.to_nat (depth args)).
  { unfold dep_list. rewrite chain_outputs_length.
    rewrite get_block_list_select in Hlists.
    destruct (select_blocks (all_children F model) down_pattern
                (range (depth args))) as [down' |] eqn:Hdown; [| discriminate].
    destruct (select_blocks (all_children F model) up_pattern
                (range (depth args - 1))) as [up' |]; [| discriminate].
    inversion Hlists; subst down' up'.
    now apply select_blocks_seq in Hdown. }
  assert (Hpm : passes_made
                = input :: removelast dep_list
                  ++ up_inputs F (Z.to_nat (depth args - 1))
                       (Z.to_nat (depth args - 1)) dep_list).
  { unfold passes_made. rewrite Hrun. exact Hfw. }
  split; [assumption |]. split; [assumption |].
  rewrite Hpm. cbn [List.length]. rewrite length_app, up_inputs_length.
  assert (Hrl : List.length (removelast dep_list) = (Z.to_nat (depth args) - 1)%nat).
  { destruct dep_list as [| t l] eqn:E using rev_ind.
    - simpl in Hlen. simpl. lia.
    - rewrite removelast_last. rewrite length_app in Hlen. simpl in Hlen. lia. }
  rewrite Hrl. lia.
Qed.

Lemma block_filters_forward_passes_witness :
  List.length (forwarded (fst (block_filters toy 2 0%nat "img" defaults))) = 7%nat.
Proof.
  apply (proj2 (proj2 (block_filters_forward_passes toy 2 0%nat "img" defaults
                         [10; 20; 30]%nat [40; 50]%nat eq_refl
                         ltac:(simpl; lia) toy_enough_channels
                         ltac:(simpl; lia)))).
Defined.

(** ** [block_filters]: no plot replaces another *)

Lemma append_inv_head (s a b : string) :
  (s ++ a)%string = (s ++ b)%string -> a = b.
Proof.
  induction s as [| c s IH]; simpl; intros H; [assumption |].
  inversion H. auto.
Qed.

Lemma block_filters_saved (F : framework) (fuel : nat) (model : module F)
  (img_path : string) (args : Namespace) :
  blocks_present (all_children F model) (depth args) ->
  enough_channels F (all_children F model) (depth args) ->
  (Z.to_nat (depth args - 1) <= fuel)%nat ->
  saved (fst (block_filters F fuel model img_path args))
  = map (block_path args "down") (firstn (Z.to_nat (depth args)) down_sizes)
    ++ map (block_path args "up") (firstn (Z.to_nat (depth args - 1)) up_sizes).
Proof.
  intros Hpresent Hchannels Hfuel.
  destruct (Z.le_gt_cases (depth args) 0) as [Hdepth | Hdepth].
  - rewrite block_filters_no_block by assumption.
    replace (Z.to_nat (depth args)) with 0%nat by lia.
    replace (Z.to_nat (depth args - 1)) with 0%nat by lia.
    reflexivity.
  - destruct (proj1 (blocks_present_select _ _) Hpresent)
      as (down & up & Hdown & Hup).
    pose proof (get_block_list_select F (all_children F model) args) as Hlists.
    rewrite Hdown, Hup in Hlists.
    apply select_blocks_seq in Hdown. apply select_blocks_seq in Hup.
    destruct Hdown as [Hlend Hnd], Hup as [Hlenu Hnu].
    destruct (block_filters_writes F fuel model img_path args down up
                Hlists Hlend Hlenu Hnd Hnu ltac:(lia) Hchannels Hfuel)
      as (tr & [] & Hrun & Hsaved & _).
    rewrite Hrun. exact Hsaved.
Qed.

Lemma block_paths_distinct (args : Namespace) (a b : nat) :
  NoDup (map (block_path args "down") (firstn a down_sizes)
         ++ map (block_path args "up") (firstn b up_sizes)).
Proof.
  assert (Hne : forall x y : string,
             x <> y -> (interpret_path args ++ x)%string
                       <> (interpret_path args ++ y)%string).
  { intros x y Hxy H. apply Hxy. eapply append_inv_head; eassumption. }
  unfold block_path, down_sizes, up_sizes.
  destruct a as [| [| [| a]]]; destruct b as [| [| b]];
    cbn [firstn]; rewrite ?firstn_nil; cbn [map app];
    repeat (constructor;
            [cbn [In]; intros Hin;
             repeat (destruct Hin as [Hin | Hin];
                     [revert Hin; apply Hne; vm_compute; discriminate |]);
             exact Hin |]);
    constructor.
Qed.

(** X16.  The plots of one run of [block_filters] go to pairwise different
    files, whatever [interpret_path] and [depth] are: no plot replaces
    another one of the same run. *)
Theorem block_filters_distinct_files (F : framework) (fuel : nat)
  (model : module F) (img_path : string) (args : Namespace) :
  blocks_present (all_children F model) (depth args) ->
  enough_channels F (all_children F model) (depth args) ->
  (Z.to_nat (depth args - 1) <= fuel)%nat ->
  NoDup (saved (fst (block_filters F fuel model img_path args))).
Proof.
  intros Hpresent Hchannels Hfuel.
  rewrite block_filters_saved by assumption. apply block_paths_distinct.
Qed.

Lemma block_filters_distinct_files_witness :
  NoDup (saved (fst (block_filters toy 2 0%nat "img" defaults))).
Proof.
  apply (block_filters_distinct_files toy 2 0%nat "img" defaults
           toy_blocks_present toy_enough_channels).
  simpl. lia.
Defined.
